(** * falcore: the connection-serving engine of [server.go]

    A shallow embedding of [server.go]: the listener bootstrap
    ([FdListen], [socketListen], [ListenAndServe]), the per-connection
    handler ([handler], [connectionFinished], [requestFinished]) and the
    graceful accept loop ([serve], [StopAccepting]).

    The handler is sequential code and is embedded as a function in a
    small state monad that produces the ordered list of calls it makes
    on its collaborators.  The accept loop runs concurrently with the
    handlers it spawns and with the callers of [StopAccepting]; it is
    embedded as a step function on a [World] that holds the program
    counter of [serve], the wait group, the two channels and the
    handler goroutines, and that is driven by a schedule of actions. *)

From stdpp Require Import base numbers list strings pretty gmap.
From Stdlib Require Import ZArith Lia.

Local Open Scope string_scope.
Local Open Scope list_scope.
Local Open Scope Z_scope.

(** ** Errors

    [os.Error] values.  The code distinguishes the sentinel
    [io.ErrUnexpectedEOF] (by identity) and values of dynamic type
    [*net.OpError] (by type assertion, then [Timeout()] and
    [Temporary()]); every other error is opaque to it. *)
Inductive error : Type :=
| io_ErrUnexpectedEOF
| OpError (timeout temporary : bool) (msg : string)
| Errno (e : Z)
| ErrorString (msg : string).

Definition os_NewError (msg : string) : error := ErrorString msg.

Definition error_text (e : error) : string :=
  match e with
  | io_ErrUnexpectedEOF => "unexpected EOF"
  | OpError _ _ msg => msg
  | Errno _ => "errno"
  | ErrorString msg => msg
  end.

(** ** Listeners and files *)

Record File := { Fd : Z; file_name : string }.

Definition os_NewFile (fd : Z) (name : string) : File :=
  {| Fd := fd; file_name := name |}.

(** A [*net.TCPListener]; [tcp_timeout] is the accept timeout in
    nanoseconds, [None] while [SetTimeout] has not been called. *)
Record TCPListener := {
  tcp_fd : Z;
  tcp_addr : string;
  tcp_timeout : option Z
}.

Definition SetTimeout (l : TCPListener) (nsec : Z) : TCPListener :=
  {| tcp_fd := tcp_fd l; tcp_addr := tcp_addr l; tcp_timeout := Some nsec |}.

(** A [net.Listener] interface value: a TCP listener, or a listener of
    another dynamic type (a [*net.UnixListener] for instance). *)
Inductive Listener : Type :=
| ListenerTCP (l : TCPListener)
| ListenerOther (kind : string) (fd : Z).

(** The operating system and the [net] package, as seen by the
    bootstrap: each field is the outcome of the call of that name. *)
Record Net := {
  net_FileListener : File → Listener + error;
  net_ResolveTCPAddr : string → string → string + error;
  net_ListenTCP : string → string → TCPListener + error;
  tcp_File : TCPListener → File + error;
  syscall_SetNonblock : Z → bool → Z
}.

(** ** HTTP messages *)

Record HttpRequest := {
  Method : string;
  RawURL : string;
  Header : gmap string (list string)
}.

(** [Header.Get]: the first value stored under the key, [""] if none. *)
Definition Header_Get (h : gmap string (list string)) (key : string) : string :=
  match h !! key with
  | Some (v :: _) => v
  | _ => ""
  end.

Record HttpResponse := {
  StatusCode : Z;
  ResHeader : gmap string (list string);
  ResBody : option string;
  ResRequest : option HttpRequest
}.

(** Modelled from the spec: [SimpleResponse] lives in a file that is
    not part of [src/]; the handler calls it to "synthesize a default
    not-found response".  It builds a response with the given status
    code and headers whose body is the given text, for the request. *)
Definition SimpleResponse (req : HttpRequest) (status : Z)
    (headers : option (gmap string (list string))) (body : string) : HttpResponse :=
  {| StatusCode := status;
     ResHeader := default ∅ headers;
     ResBody := Some body;
     ResRequest := Some req |}.

(** ** Connections

    A [net.Conn] together with what its peer does: [reader size] is
    the error, if any, of [bufio.NewReaderSize(c, size)] and [incoming]
    lists the outcomes of the successive calls of [http.ReadRequest] on
    that reader.  Once the script is used up the peer has closed the stream
    and [http.ReadRequest] reports [io.ErrUnexpectedEOF]. *)
Inductive ReadResult : Type :=
| ReadOk (req : HttpRequest)
| ReadErr (err : error).

Record Conn := {
  RemoteAddr : string;
  reader : Z → option error;
  incoming : list ReadResult
}.

(** ** Request contexts and stage timing *)

(** Modelled from the spec: the type [PipelineStageStat] is declared
    outside [src/].  A "stage-timing record" is a "(stage name, start
    timestamp, end timestamp) triple"; the handler sets the fields
    [Name], [StartTime] and [EndTime]. *)
Record PipelineStageStat := {
  Name : string;
  StartTime : Z;
  EndTime : Z
}.

(** Modelled from the spec: the type [Request] is declared outside
    [src/].  A "request context" holds "the parsed request, the owning
    connection, a wall-clock start timestamp, and an ordered sequence
    of stage-timing records"; [CurrentStage] is the stage that has
    begun and not yet ended, [Finished] is set by [finishRequest]. *)
Record Request := {
  HttpReq : HttpRequest;
  Connection : Conn;
  ReqStartTime : Z;
  PipelineStageStats : list PipelineStageStat;
  CurrentStage : option (string * Z);
  Finished : bool
}.

(** Modelled from the spec: [newRequest] is not part of [src/].  A
    request context is "the parsed request, the owning connection, a
    wall-clock start timestamp, and an ordered sequence of stage-timing
    records", created empty at the start of a request cycle. *)
Definition newRequest (req : HttpRequest) (c : Conn) (startTime : Z) : Request :=
  {| HttpReq := req; Connection := c; ReqStartTime := startTime;
     PipelineStageStats := []; CurrentStage := None; Finished := false |}.

(** Modelled from the spec: [appendPipelineStage] is not part of
    [src/].  A complete stage-timing record is appended to the
    sequence. *)
Definition appendPipelineStage (request : Request) (pss : PipelineStageStat) : Request :=
  {| HttpReq := HttpReq request; Connection := Connection request;
     ReqStartTime := ReqStartTime request;
     PipelineStageStats := PipelineStageStats request ++ [pss];
     CurrentStage := CurrentStage request; Finished := Finished request |}.

(** Modelled from the spec: [startPipelineStage] is not part of
    [src/].  It begins a stage of the given name at the given clock
    reading. *)
Definition startPipelineStage (request : Request) (name : string) (t : Z) : Request :=
  {| HttpReq := HttpReq request; Connection := Connection request;
     ReqStartTime := ReqStartTime request;
     PipelineStageStats := PipelineStageStats request;
     CurrentStage := Some (name, t); Finished := Finished request |}.

(** Modelled from the spec: [finishPipelineStage] is not part of
    [src/].  It ends the stage begun last at the given clock reading
    and appends its (name, start, end) record to the sequence. *)
Definition finishPipelineStage (request : Request) (t : Z) : Request :=
  match CurrentStage request with
  | Some (name, t0) =>
      {| HttpReq := HttpReq request; Connection := Connection request;
         ReqStartTime := ReqStartTime request;
         PipelineStageStats :=
           PipelineStageStats request ++ [{| Name := name; StartTime := t0; EndTime := t |}];
         CurrentStage := None; Finished := Finished request |}
  | None => request
  end.

(** Modelled from the spec: [finishRequest] is not part of [src/].  It
    "finalizes the request context's stage sequence": the context is
    marked finished and its records are left as they are. *)
Definition finishRequest (request : Request) : Request :=
  {| HttpReq := HttpReq request; Connection := Connection request;
     ReqStartTime := ReqStartTime request;
     PipelineStageStats := PipelineStageStats request;
     CurrentStage := CurrentStage request; Finished := true |}.

(** ** The pipeline collaborator *)

(** Modelled from the spec: [Pipeline] and its [execute] are not part
    of [src/].  [execute] is "synchronous from the handler's
    perspective" and yields "response | absent"; its stages are "free
    to append" stage-timing records to the request context.  It is
    given the clock from the moment of the call on ([clk 0] is the
    first reading it can take) and the request context; it returns the
    response if any, the request context as it left it, and how many
    clock readings it took.  [RequestDoneCallback] tells whether a
    completion observer is configured. *)
Record Pipeline := {
  execute : (nat → Z) → Request → option HttpResponse * Request * nat;
  RequestDoneCallback : bool
}.

(** ** The server

    The fields of [Server] that hold plain data.  The objects behind
    [stopAccepting], [handlerWaitGroup] and [AcceptReady] are shared
    between goroutines; their state is kept in the [World] below. *)
Record Server := {
  Addr : string;
  ServerPipeline : Pipeline;
  listener : option Listener;
  listenerFile : option File;
  logPrefix : string
}.

Definition set_Addr (srv : Server) (a : string) : Server :=
  {| Addr := a; ServerPipeline := ServerPipeline srv; listener := listener srv;
     listenerFile := listenerFile srv; logPrefix := logPrefix srv |}.

Definition set_listener (srv : Server) (l : option Listener) : Server :=
  {| Addr := Addr srv; ServerPipeline := ServerPipeline srv; listener := l;
     listenerFile := listenerFile srv; logPrefix := logPrefix srv |}.

Definition set_listenerFile (srv : Server) (f : option File) : Server :=
  {| Addr := Addr srv; ServerPipeline := ServerPipeline srv; listener := listener srv;
     listenerFile := f; logPrefix := logPrefix srv |}.

Definition serverLogPrefix (srv : Server) : string := logPrefix srv.

(** ** Listener bootstrap *)

(** The literal [3e9] passed to [SetTimeout], in nanoseconds. *)
Definition accept_timeout : Z := 3000000000.

Section Bootstrap.
Variable net : Net.

(** [FdListen]: adopt the descriptor [fd].  The result of
    [net.FileListener] is stored in [srv.listener] before it is
    examined; on an error that result is the nil listener. *)
Definition FdListen (srv : Server) (fd : Z) : Server * option error :=
  let srv := set_listenerFile srv (Some (os_NewFile fd "")) in
  match net_FileListener net (os_NewFile fd "") with
  | inr err => (set_listener srv None, Some err)
  | inl (ListenerTCP l) =>
      (set_listener srv (Some (ListenerTCP (SetTimeout l accept_timeout))), None)
  | inl other =>
      (set_listener srv (Some other), Some (os_NewError "Broken listener isn't TCP"))
  end.

(** [socketListen]: bind a fresh listener to [srv.Addr]. *)
Definition socketListen (srv : Server) : Server * option error :=
  match net_ResolveTCPAddr net "tcp" (Addr srv) with
  | inr err => (srv, Some err)
  | inl la =>
      match net_ListenTCP net "tcp" la with
      | inr err => (srv, Some err)
      | inl l =>
          let srv := set_listener srv (Some (ListenerTCP l)) in
          match tcp_File net l with
          | inr err => (set_listenerFile srv None, Some err)
          | inl f =>
              let srv := set_listenerFile srv (Some f) in
              let e := syscall_SetNonblock net (Fd f) true in
              if decide (e ≠ 0) then (srv, Some (Errno e))
              else (set_listener srv (Some (ListenerTCP (SetTimeout l accept_timeout))), None)
          end
      end
  end.
End Bootstrap.

(** ** Logging *)

Inductive Level : Type := LError | LTrace.

Record LogLine := { level : Level; format : string; args : list string }.

(** ** The calls a handler makes

    One constructor per call the handler makes on a collaborator, in
    the order of the source: the logger, [http.ReadRequest], the
    pipeline, the request body, the write buffer, the response body,
    [requestFinished], the completion callback, [c.Close()] and
    [handlerWaitGroup.Done()]. *)
Inductive Event : Type :=
| EvLog (l : LogLine)
| EvReadRequest (r : ReadResult)
| EvExecute (request : Request)
| EvCloseRequestBody (req : HttpRequest)
| EvWrite (res : HttpResponse)
| EvFlush
| EvCloseResponseBody
| EvRequestFinished (request : Request)
| EvGoCallback (request : Request)
| EvConnClose
| EvWgDone.

(** ** The handler monad: the clock position and the calls made *)

Record HState := { ticks : nat; events : list Event }.

Definition M (A : Type) : Type := HState → A * HState.

Global Instance M_ret : MRet M := λ A x st, (x, st).

Global Instance M_bind : MBind M :=
  λ A B k m st, let (x, st') := m st in k x st'.

Definition call (e : Event) : M unit :=
  λ st, (tt, {| ticks := ticks st; events := events st ++ [e] |}).

Definition Error (fmt : string) (a : list string) : M unit :=
  call (EvLog {| level := LError; format := fmt; args := a |}).

Global Instance error_eq_dec : EqDecision error.
Proof. solve_decision. Defined.

Section Handler.
(** [now i] is the [i]-th reading of [time.Nanoseconds()] available
    to the goroutine. *)
Variable now : nat → Z.

Definition time_Nanoseconds : M Z :=
  λ st, (now (ticks st), {| ticks := S (ticks st); events := events st |}).

(** [srv.Pipeline.execute(request)] *)
Definition Pipeline_execute (p : Pipeline) (request : Request)
    : M (option HttpResponse * Request) :=
  λ st,
    let '(res, request', k) := execute p (λ i, now (ticks st + i)%nat) request in
    ((res, request'),
     {| ticks := (ticks st + k)%nat; events := events st ++ [EvExecute request] |}).

(** [request.startPipelineStage(name)]: the stage begins at the clock
    reading taken by the call. *)
Definition Request_startPipelineStage (request : Request) (name : string) : M Request :=
  t ← time_Nanoseconds; mret (startPipelineStage request name t).

(** [request.finishPipelineStage()]: the stage ends at the clock
    reading taken by the call. *)
Definition Request_finishPipelineStage (request : Request) : M Request :=
  t ← time_Nanoseconds; mret (finishPipelineStage request t).

(** [requestFinished] *)
Definition requestFinished (srv : Server) (request : Request) : M unit :=
  call (EvRequestFinished request) ;;
  if RequestDoneCallback (ServerPipeline srv)
  then call (EvGoCallback request)
  else mret tt.

(** [connectionFinished] *)
Definition connectionFinished (srv : Server) (c : Conn) : M unit :=
  call EvConnClose ;;
  call EvWgDone.

(** The body of the request loop after a successful
    [http.ReadRequest]; the result is the loop variable [keepAlive]. *)
Definition serve_request (srv : Server) (c : Conn) (startTime : Z)
    (req : HttpRequest) : M bool :=
  let keepAlive :=
    if decide (Header_Get (Header req) "Connection" ≠ "Keep-Alive") then false else true in
  let request := newRequest req c startTime in
  t ← time_Nanoseconds;
  let pssInit := {| Name := "server.Init"; StartTime := startTime; EndTime := t |} in
  let request := appendPipelineStage request pssInit in
  r ← Pipeline_execute (ServerPipeline srv) request;
  let request := r.2 in
  let res :=
    match r.1 with
    | Some res => res
    | None => SimpleResponse req 404 None "Not Found"
    end in
  request ← Request_startPipelineStage request "server.ResponseWrite";
  call (EvCloseRequestBody req) ;;
  call (EvWrite res) ;;
  call EvFlush ;;
  match ResBody res with
  | Some _ => call EvCloseResponseBody
  | None => mret tt
  end ;;
  request ← Request_finishPipelineStage request;
  let request := finishRequest request in
  requestFinished srv request ;;
  mret keepAlive.

(** The [else] branch of the loop body: [http.ReadRequest] failed. *)
Definition read_failed (srv : Server) (c : Conn) (err : error) : M unit :=
  call (EvReadRequest (ReadErr err)) ;;
  if decide (err ≠ io_ErrUnexpectedEOF)
  then Error "%s %v ERROR reading request: %v"
         [serverLogPrefix srv; RemoteAddr c; error_text err]
  else mret tt.

(** [for err == nil && keepAlive { ... }]; the result is [reqCount]. *)
Fixpoint request_loop (srv : Server) (c : Conn) (startTime : Z)
    (input : list ReadResult) (reqCount : nat) : M nat :=
  match input with
  | ReadOk req :: rest =>
      call (EvReadRequest (ReadOk req)) ;;
      keepAlive ← serve_request srv c startTime req;
      if keepAlive : bool
      then request_loop srv c startTime rest (S reqCount)
      else mret (S reqCount)
  | ReadErr err :: _ => read_failed srv c err ;; mret reqCount
  | [] => read_failed srv c io_ErrUnexpectedEOF ;; mret reqCount
  end.

(** [handler]; the deferred [connectionFinished] runs last on both
    ways out. *)
Definition handler (srv : Server) (c : Conn) : M unit :=
  startTime ← time_Nanoseconds;
  match reader c 8192 with
  | Some err =>
      Error "%s Read buffer fail: %v" [serverLogPrefix srv; error_text err]
  | None =>
      request_loop srv c startTime (incoming c) 0 ;; mret tt
  end ;;
  connectionFinished srv c.

Definition handler_events (srv : Server) (c : Conn) : list Event :=
  events (handler srv c {| ticks := 0; events := [] |}).2.
End Handler.

(** ** The accept loop and its goroutines *)

Inductive AcceptResult : Type :=
| AcceptConn (c : Conn)
| AcceptErr (e : error).

(** Where [serve] stands: the statement it executes next. *)
Inductive ServePc : Type :=
| PcAcceptReady
| PcLoop (accept : bool)
| PcAccept
| PcAdd (c : Conn)
| PcGo (c : Conn)
| PcSelect
| PcWait
| PcReturned (e : option error).

(** The state shared by [serve], the handler goroutines and the callers
    of [StopAccepting].  [wg] is the counter of [handlerWaitGroup];
    [acceptReady] is the buffer of the channel [AcceptReady] (capacity
    one); [stopAccepting] is unbuffered, so its state is the number of
    goroutines blocked in the send of [StopAccepting] ([senders]), and
    [delivered] counts the calls of [StopAccepting] that have returned.
    A handler goroutine is the list of calls it has still to make. *)
Record World := {
  server : Server;
  pc : ServePc;
  wg : Z;
  acceptReady : list Z;
  senders : nat;
  delivered : nat;
  goroutines : list (list Event);
  accepted : list Conn;
  log : list LogLine
}.

Definition set_pc (w : World) (p : ServePc) : World :=
  {| server := server w; pc := p; wg := wg w; acceptReady := acceptReady w;
     senders := senders w; delivered := delivered w; goroutines := goroutines w;
     accepted := accepted w; log := log w |}.

Definition set_wg (w : World) (n : Z) : World :=
  {| server := server w; pc := pc w; wg := n; acceptReady := acceptReady w;
     senders := senders w; delivered := delivered w; goroutines := goroutines w;
     accepted := accepted w; log := log w |}.

Definition set_acceptReady (w : World) (b : list Z) : World :=
  {| server := server w; pc := pc w; wg := wg w; acceptReady := b;
     senders := senders w; delivered := delivered w; goroutines := goroutines w;
     accepted := accepted w; log := log w |}.

Definition set_stop (w : World) (s d : nat) : World :=
  {| server := server w; pc := pc w; wg := wg w; acceptReady := acceptReady w;
     senders := s; delivered := d; goroutines := goroutines w;
     accepted := accepted w; log := log w |}.

Definition set_goroutines (w : World) (gs : list (list Event)) : World :=
  {| server := server w; pc := pc w; wg := wg w; acceptReady := acceptReady w;
     senders := senders w; delivered := delivered w; goroutines := gs;
     accepted := accepted w; log := log w |}.

Definition set_accepted (w : World) (cs : list Conn) : World :=
  {| server := server w; pc := pc w; wg := wg w; acceptReady := acceptReady w;
     senders := senders w; delivered := delivered w; goroutines := goroutines w;
     accepted := cs; log := log w |}.

Definition add_log (w : World) (ls : list LogLine) : World :=
  {| server := server w; pc := pc w; wg := wg w; acceptReady := acceptReady w;
     senders := senders w; delivered := delivered w; goroutines := goroutines w;
     accepted := accepted w; log := log w ++ ls |}.

(** The state on entry to [serve]. *)
Definition init_world (srv : Server) : World :=
  {| server := srv; pc := PcAcceptReady; wg := 0; acceptReady := [];
     senders := 0; delivered := 0; goroutines := []; accepted := []; log := [] |}.

(** [ListenAndServe]: either it returns an error before serving, or
    it ends in the call of [serve] on the server as it then is. *)
Inductive Outcome : Type :=
| Returned (srv : Server) (err : error)
| Serving (w : World).

Definition ListenAndServe (net : Net) (srv : Server) : Outcome :=
  let srv := if decide (Addr srv = "") then set_Addr srv ":http" else srv in
  match listener srv with
  | None =>
      match socketListen net srv with
      | (srv, Some err) => Returned srv err
      | (srv, None) => Serving (init_world srv)
      end
  | Some _ => Serving (init_world srv)
  end.

(** What the [if e != nil] branch of [serve] logs. *)
Definition accept_error_log (srv : Server) (e : error) : list LogLine :=
  let line := {| level := LError; format := "%s SERVER Accept Error: %v";
                 args := [serverLogPrefix srv; error_text e] |} in
  match e with
  | OpError timeout temporary _ =>
      if negb (timeout && temporary) then [line] else []
  | _ => [line]
  end.

(** What moves the world: [serve] executes the statement it stands at
    ([ActAccept] when that is the call of [Accept] on the listener [l],
    which returns [r];
    [ActGo] when it is the [go] statement, the new goroutine reading
    the clock as [now]); handler goroutine [i] makes its next call; a
    caller enters [StopAccepting]. *)
Inductive Action : Type :=
| ActServe
| ActAccept (l : Listener) (r : AcceptResult)
| ActGo (now : nat → Z)
| ActHandler (i : nat)
| ActStopAccepting.

(** [serve], one statement at a time.  [None] means that the statement
    cannot execute in this state: the send on a full [AcceptReady] and
    [Wait] on a non-zero counter block. *)
Definition serve_step (w : World) : option World :=
  match pc w with
  | PcAcceptReady =>
      if decide (length (acceptReady w) < 1)%nat
      then Some (set_pc (set_acceptReady w (acceptReady w ++ [1])) (PcLoop true))
      else None
  | PcLoop true => Some (set_pc w PcAccept)
  | PcLoop false =>
      Some (set_pc
              (add_log w [{| level := LTrace;
                             format := "Stopped accepting, waiting for handlers";
                             args := [] |}])
              PcWait)
  | PcAdd c => Some (set_pc (set_wg w (wg w + 1)) (PcGo c))
  | PcSelect =>
      match senders w with
      | S n => Some (set_pc (set_stop w n (S (delivered w))) (PcLoop false))
      | O => Some (set_pc w (PcLoop true))
      end
  | PcWait => if decide (wg w = 0) then Some (set_pc w (PcReturned None)) else None
  | PcAccept | PcGo _ | PcReturned _ => None
  end.

Global Instance TCPListener_eq_dec : EqDecision TCPListener.
Proof. solve_decision. Defined.

Global Instance Listener_eq_dec : EqDecision Listener.
Proof. solve_decision. Defined.

(** [c, e = srv.listener.Accept()] and the [if e != nil] that follows;
    the call is made on the listener the server holds. *)
Definition accept_step (l : Listener) (r : AcceptResult) (w : World) : option World :=
  match pc w with
  | PcAccept =>
      if decide (listener (server w) = Some l) then
        match r with
        | AcceptErr e => Some (set_pc (add_log w (accept_error_log (server w) e)) PcSelect)
        | AcceptConn c => Some (set_pc (set_accepted w (accepted w ++ [c])) (PcAdd c))
        end
      else None
  | _ => None
  end.

(** [go srv.handler(c)] *)
Definition go_step (now : nat → Z) (w : World) : option World :=
  match pc w with
  | PcGo c =>
      Some (set_pc (set_goroutines w (goroutines w ++ [handler_events now (server w) c]))
                   PcSelect)
  | _ => None
  end.

(** Goroutine [i] makes its next call.  [Done] on a zero counter
    panics: there is no next state. *)
Definition handler_step (i : nat) (w : World) : option World :=
  match goroutines w !! i with
  | Some (e :: rest) =>
      let w' := set_goroutines w (<[i := rest]> (goroutines w)) in
      match e with
      | EvLog l => Some (add_log w' [l])
      | EvWgDone => if decide (wg w - 1 < 0) then None else Some (set_wg w' (wg w - 1))
      | _ => Some w'
      end
  | _ => None
  end.

(** [StopAccepting]: the caller blocks in [srv.stopAccepting <- 1]
    until the [select] of [serve] receives. *)
Definition StopAccepting (w : World) : World :=
  set_stop w (S (senders w)) (delivered w).

Definition step (w : World) (a : Action) : option World :=
  match a with
  | ActServe => serve_step w
  | ActAccept l r => accept_step l r w
  | ActGo now => go_step now w
  | ActHandler i => handler_step i w
  | ActStopAccepting => Some (StopAccepting w)
  end.

Fixpoint run (w : World) (acts : list Action) : option World :=
  match acts with
  | [] => Some w
  | a :: acts =>
      match step w a with
      | Some w' => run w' acts
      | None => None
      end
  end.

Definition reachable (srv : Server) (w : World) : Prop :=
  ∃ acts, run (init_world srv) acts = Some w.

(** ** Observations on lists of calls *)

Definition is_done (e : Event) : bool :=
  match e with EvWgDone => true | _ => false end.

Definition is_close (e : Event) : bool :=
  match e with EvConnClose => true | _ => false end.

Definition count (p : Event → bool) (l : list Event) : nat :=
  length (filter (λ e, p e = true) l).

(** The handlers that have not yet called [Done]. *)
Definition pending_done (gs : list (list Event)) : nat :=
  sum_list_with (count is_done) gs.

(** The calls of a handler that the peer or the other goroutines can
    observe, without the payload of the writes. *)
Inductive Tag : Type :=
| TLog (l : LogLine)
| TRead (r : ReadResult)
| TWrite
| TFlush
| TClose
| TDone.

Definition tag_of (e : Event) : option Tag :=
  match e with
  | EvLog l => Some (TLog l)
  | EvReadRequest r => Some (TRead r)
  | EvWrite _ => Some TWrite
  | EvFlush => Some TFlush
  | EvConnClose => Some TClose
  | EvWgDone => Some TDone
  | _ => None
  end.

Definition skeleton (tr : list Event) : list Tag := omap tag_of tr.

(** The responses written, in order. *)
Definition writes_of (tr : list Event) : list HttpResponse :=
  omap (λ e, match e with EvWrite res => Some res | _ => None end) tr.

(** The error lines logged, in order. *)
Definition logged (tr : list Event) : list LogLine :=
  omap (λ e, match e with EvLog l => Some l | _ => None end) tr.

(** The request contexts handed to [requestFinished], in order. *)
Definition completed (tr : list Event) : list Request :=
  omap (λ e, match e with EvRequestFinished r => Some r | _ => None end) tr.

(** The tags of one request cycle: the request is read, its response
    is written, the write buffer is flushed. *)
Definition cycle (req : HttpRequest) : list Tag := [TRead (ReadOk req); TWrite; TFlush].

Definition is_twrite (t : Tag) : bool :=
  match t with TWrite => true | _ => false end.

(** The request asks for keep-alive, as the handler tests it. *)
Definition keep_alive (req : HttpRequest) : Prop :=
  Header_Get (Header req) "Connection" = "Keep-Alive".

(** A computation of the handler monad only adds calls, all of which
    satisfy [P]. *)
Definition emits {A} (P : Event → Prop) (m : M A) : Prop :=
  ∀ st, ∃ tr, events (m st).2 = events st ++ tr ∧ Forall P tr.

Definition not_cleanup (e : Event) : Prop :=
  is_close e = false ∧ is_done e = false.

(** ** Stage timing *)

(** Starting at time [t], every record begins no earlier than the
    record before it ended (or than [t], for the first) and ends no
    earlier than it begins. *)
Fixpoint chronological (t : Z) (l : list PipelineStageStat) : Prop :=
  match l with
  | [] => True
  | s :: l' => t ≤ StartTime s ∧ StartTime s ≤ EndTime s ∧ chronological (EndTime s) l'
  end.

Fixpoint last_end (t : Z) (l : list PipelineStageStat) : Z :=
  match l with
  | [] => t
  | s :: l' => last_end (EndTime s) l'
  end.

Definition monotone (clk : nat → Z) : Prop :=
  ∀ i j, (i ≤ j)%nat → clk i ≤ clk j.

(** What the handler relies on from the pipeline: on a clock that does
    not run backwards, [execute] only appends records to the sequence
    of the request context, and what it appends is chronological from
    its first possible clock reading and ends by the reading that
    follows its last. *)
Definition appends_stages (p : Pipeline) : Prop :=
  ∀ clk request, monotone clk →
    ∃ extra,
      PipelineStageStats (execute p clk request).1.2
        = PipelineStageStats request ++ extra
      ∧ chronological (clk 0%nat) extra
      ∧ last_end (clk 0%nat) extra ≤ clk (execute p clk request).2.

(** What holds of a request context handed to [requestFinished] by a
    handler whose connection began at [now 0]: its sequence is the
    record "server.Init", what the pipeline appended, and the record
    "server.ResponseWrite", and it is chronological. *)
Definition well_timed (now : nat → Z) (p : Pipeline) (request : Request) : Prop :=
  ∃ (k : nat) (extra : list PipelineStageStat) (ws we : Z),
    let init := {| Name := "server.Init"; StartTime := now 0%nat; EndTime := now k |} in
    PipelineStageStats request
    = init :: extra ++ [{| Name := "server.ResponseWrite"; StartTime := ws; EndTime := we |}]
    ∧ chronological (now 0%nat) (PipelineStageStats request)
    ∧ ∃ clk request0,
        PipelineStageStats request0 = [init]
        ∧ PipelineStageStats (execute p clk request0).1.2 = init :: extra.

(** ** Draining *)

(** An upper bound on the steps [serve] and the handlers can still take
    once the loop has been left. *)
Definition drain_measure (w : World) : nat :=
  (length (concat (goroutines w))
   + match pc w with
     | PcLoop false => 2
     | PcWait => 1
     | _ => 0
     end)%nat.

(** [serve] has left its loop. *)
Definition draining (w : World) : Prop :=
  pc w = PcLoop false ∨ pc w = PcWait ∨ pc w = PcReturned None.

Definition is_stop (a : Action) : bool :=
  match a with ActStopAccepting => true | _ => false end.

(** The invariant of the accept loop: the counter of the wait group is
    the number of handlers that have still to call [Done], plus one
    between [Add(1)] and the [go] statement; a handler that has calls
    left ends with [Done]; [serve] returns nil, with the counter at
    zero. *)
Definition serve_inv (w : World) : Prop :=
  wg w = Z.of_nat (pending_done (goroutines w))
         + match pc w with PcGo _ => 1 | _ => 0 end
  ∧ Forall (λ g, g = [] ∨ last g = Some EvWgDone) (goroutines w)
  ∧ ∀ e, pc w = PcReturned e → e = None ∧ wg w = 0.

(** ** Sample data *)

Definition sample_clock (i : nat) : Z := 100 + 7 * Z.of_nat i.

Definition sample_keepalive : HttpRequest :=
  {| Method := "GET"; RawURL := "/a";
     Header := {[ "Connection" := ["Keep-Alive"] ]} |}.

Definition sample_plain : HttpRequest :=
  {| Method := "GET"; RawURL := "/b"; Header := ∅ |}.

(** A pipeline with one timed stage that produces no response. *)
Definition sample_pipeline : Pipeline :=
  {| execute := λ clk request,
       (None,
        appendPipelineStage request
          {| Name := "filter"; StartTime := clk 0%nat; EndTime := clk 1%nat |},
        2%nat);
     RequestDoneCallback := true |}.

Definition sample_unix : Listener := ListenerOther "unix" 7.

Definition sample_tcp : TCPListener :=
  {| tcp_fd := 5; tcp_addr := ":8080"; tcp_timeout := None |}.

Definition sample_server : Server :=
  {| Addr := ":8080"; ServerPipeline := sample_pipeline;
     listener := Some (ListenerTCP (SetTimeout sample_tcp accept_timeout));
     listenerFile := Some (os_NewFile 5 ""); logPrefix := "4242" |}.

Definition sample_fresh : Server :=
  {| Addr := ":8080"; ServerPipeline := sample_pipeline;
     listener := None; listenerFile := None; logPrefix := "4242" |}.

(** A descriptor table in which 7 is a Unix-domain listener and every
    other descriptor is not a socket; binding always succeeds. *)
Definition sample_net : Net :=
  {| net_FileListener := λ f,
       if decide (Fd f = 7) then inl sample_unix
       else inr (ErrorString "not a socket");
     net_ResolveTCPAddr := λ _ a, inl a;
     net_ListenTCP := λ _ la,
       inl {| tcp_fd := 9; tcp_addr := la; tcp_timeout := None |};
     tcp_File := λ l, inl (os_NewFile (tcp_fd l) "");
     syscall_SetNonblock := λ _ _, 0 |}.

(** Two keep-alive requests, then one without the header. *)
Definition sample_conn : Conn :=
  {| RemoteAddr := "10.0.0.1:5000"; reader := λ _, None;
     incoming := [ReadOk sample_keepalive; ReadOk sample_keepalive; ReadOk sample_plain] |}.

(** A peer whose second request is malformed. *)
Definition sample_broken : Conn :=
  {| RemoteAddr := "10.0.0.2:5000"; reader := λ _, None;
     incoming := [ReadOk sample_keepalive; ReadErr (ErrorString "malformed HTTP request")] |}.

(** The context of the first request of [sample_conn] on
    [sample_clock], as [requestFinished] receives it. *)
Definition sample_finished : Request :=
  {| HttpReq := sample_keepalive; Connection := sample_conn; ReqStartTime := 100;
     PipelineStageStats :=
       [{| Name := "server.Init"; StartTime := 100; EndTime := 107 |};
        {| Name := "filter"; StartTime := 114; EndTime := 121 |};
        {| Name := "server.ResponseWrite"; StartTime := 128; EndTime := 135 |}];
     CurrentStage := None; Finished := true |}.

Definition sample_timeout : error := OpError true true "accept tcp: i/o timeout".

(** [serve] has signalled that it is ready and stands at [Accept]. *)
Definition sample_accepting : World :=
  default (init_world sample_server)
    (run (init_world sample_server) [ActServe; ActServe]).

(** [serve] has accepted [sample_conn] and started its handler while a
    caller waits in [StopAccepting]; it stands at the [select]. *)
Definition sample_schedule : list Action :=
  [ActStopAccepting; ActServe; ActServe;
   ActAccept (ListenerTCP (SetTimeout sample_tcp accept_timeout)) (AcceptConn sample_conn);
   ActServe; ActGo sample_clock].

Definition sample_select : World :=
  default (init_world sample_server) (run (init_world sample_server) sample_schedule).

(** [serve] has timed out once in [Accept], received the stop signal
    and returned. *)
Definition sample_stop_schedule : list Action :=
  [ActServe; ActServe;
   ActAccept (ListenerTCP (SetTimeout sample_tcp accept_timeout)) (AcceptErr sample_timeout);
   ActStopAccepting; ActServe; ActServe; ActServe].

Definition sample_stopped : World :=
  default (init_world sample_server) (run (init_world sample_server) sample_stop_schedule).

(** ** The rest of the bootstrap *)

(** [NewServer]; [pid] is the value of [syscall.Getpid()].  The channels
    and the wait group it makes are empty: their state is that of
    [init_world]. *)
Definition NewServer (port : Z) (pipeline : Pipeline) (pid : Z) : Server :=
  {| Addr := ":" +:+ pretty port;
     ServerPipeline := pipeline;
     listener := None;
     listenerFile := None;
     logPrefix := pretty pid |}.

(** [SocketFd]: the descriptor of [srv.listenerFile]; [None] when that
    file is nil, where the result is up to the method [Fd] of [os.File]. *)
Definition SocketFd (srv : Server) : option Z := Fd <$> listenerFile srv.

(** The parts of a [tls.Config] the server sets. *)
Inductive RandSource : Type := rand_Reader.
Inductive TimeSource : Type := time_Seconds.

Record Certificate := { cert_pem : string; key_pem : string }.

Record TLSConfig := {
  Rand : RandSource;
  Time : TimeSource;
  NextProtos : list string;
  Certificates : list Certificate
}.

(** [ListenAndServeTLS]: either it returns an error before serving, or
    it ends in the call of [serve] after the assignment
    [srv.listener = tls.NewListener(srv.listener, config)]; [srv] and
    [inner] are the server and its listener just before that
    assignment. *)
Inductive TLSOutcome : Type :=
| TLSReturned (srv : Server) (err : error)
| TLSServing (srv : Server) (inner : option Listener) (config : TLSConfig).

(** [load] is [tls.LoadX509KeyPair]. *)
Definition ListenAndServeTLS (net : Net) (load : string → string → Certificate + error)
    (srv : Server) (certFile keyFile : string) : TLSOutcome :=
  let srv := if decide (Addr srv = "") then set_Addr srv ":https" else srv in
  match load certFile keyFile with
  | inr err => TLSReturned srv err
  | inl cert =>
      let config := {| Rand := rand_Reader; Time := time_Seconds;
                       NextProtos := ["http/1.1"]; Certificates := [cert] |} in
      match listener srv with
      | None =>
          match socketListen net srv with
          | (srv, Some err) => TLSReturned srv err
          | (srv, None) => TLSServing srv (listener srv) config
          end
      | Some _ => TLSServing srv (listener srv) config
      end
  end.

(** ** More observations *)

(** The requests read successfully, in order. *)
Definition reads_ok (tr : list Event) : list HttpRequest :=
  omap (λ e, match e with EvReadRequest (ReadOk req) => Some req | _ => None end) tr.

(** The request contexts submitted to the pipeline, in order. *)
Definition executed (tr : list Event) : list Request :=
  omap (λ e, match e with EvExecute r => Some r | _ => None end) tr.

(** The calls of [requestFinished] ([inl]) and the dispatches of the
    completion callback ([inr]), in order. *)
Definition finish_view (tr : list Event) : list (Request + Request) :=
  omap (λ e, match e with
             | EvRequestFinished r => Some (inl r)
             | EvGoCallback r => Some (inr r)
             | _ => None
             end) tr.

Definition is_flush (e : Event) : bool :=
  match e with EvFlush => true | _ => false end.

Definition is_request_close (e : Event) : bool :=
  match e with EvCloseRequestBody _ => true | _ => false end.

Definition is_read_ok (e : Event) : bool :=
  match e with EvReadRequest (ReadOk _) => true | _ => false end.

Definition is_execute (e : Event) : bool :=
  match e with EvExecute _ => true | _ => false end.

Definition is_write (e : Event) : bool :=
  match e with EvWrite _ => true | _ => false end.

Definition is_finished (e : Event) : bool :=
  match e with EvRequestFinished _ => true | _ => false end.

(** The calls that a handler makes once per request it serves. *)
Definition per_request : list (Event → bool) :=
  [is_read_ok; is_execute; is_request_close; is_write; is_flush; is_finished].

(** What [requestFinished] does with a finished request context. *)
Definition finish_calls (srv : Server) (request : Request) : list (Request + Request) :=
  inl request :: (if RequestDoneCallback (ServerPipeline srv) then [inr request] else []).

(** The error line of a failed [http.ReadRequest]. *)
Definition read_error_line (srv : Server) (c : Conn) (err : error) : LogLine :=
  {| level := LError; format := "%s %v ERROR reading request: %v";
     args := [serverLogPrefix srv; RemoteAddr c; error_text err] |}.

(** What can be observed of the end of the request loop: nothing when
    the last request did not ask for keep-alive, the failed read and
    its error line otherwise. *)
Definition loop_exit (srv : Server) (c : Conn) (err : option error) : list Tag :=
  match err with
  | None => []
  | Some err =>
      TRead (ReadErr err)
      :: (if decide (err = io_ErrUnexpectedEOF) then [] else [TLog (read_error_line srv c err)])
  end.

(** [serve] has left its loop ([accept] is false). *)
Definition left_loop (w : World) : bool :=
  match pc w with
  | PcLoop false | PcWait | PcReturned _ => true
  | _ => false
  end.

(** The connection [serve] has accepted and not yet handed to a
    handler. *)
Definition in_hand (w : World) : list Conn :=
  match pc w with
  | PcAdd c | PcGo c => [c]
  | _ => []
  end.

(** How many connections [serve] can still accept before its next
    [select]. *)
Definition accept_budget (w : World) : nat :=
  match pc w with
  | PcAcceptReady | PcLoop true | PcAccept => 1
  | _ => 0
  end.

(** A key pair loader that knows one pair of files. *)
Definition sample_load (certFile keyFile : string) : Certificate + error :=
  if decide (certFile = "cert.pem" ∧ keyFile = "key.pem")
  then inl {| cert_pem := "CERT"; key_pem := "KEY" |}
  else inr (ErrorString "open: no such file or directory").

(** A network on which the bound listener cannot give its file. *)
Definition sample_net_nofile : Net :=
  {| net_FileListener := net_FileListener sample_net;
     net_ResolveTCPAddr := net_ResolveTCPAddr sample_net;
     net_ListenTCP := net_ListenTCP sample_net;
     tcp_File := λ _, inr (ErrorString "dup: too many open files");
     syscall_SetNonblock := syscall_SetNonblock sample_net |}.

(** * Properties *)

(** ** Listener bootstrap *)

Lemma socketListen_timeout (net : Net) (srv srv' : Server) :
  socketListen net srv = (srv', None) →
  ∃ l, listener srv' = Some (ListenerTCP l) ∧ tcp_timeout l = Some accept_timeout.
Proof.
  unfold socketListen.
  destruct (net_ResolveTCPAddr net "tcp" (Addr srv)) as [la|]; [|discriminate].
  destruct (net_ListenTCP net "tcp" la) as [l|]; [|discriminate].
  destruct (tcp_File net l) as [f|]; [|discriminate].
  case_decide; [discriminate|].
  intros [= <-]. by eexists.
Qed.

(** C9.  [FdListen] fails exactly when the descriptor does not wrap to
    a TCP listener: with the error of [net.FileListener] when the
    descriptor is no listener at all, with "Broken listener isn't TCP"
    when it is a listener of another kind.  On a TCP listener it
    succeeds and sets the accept timeout that [socketListen] sets on a
    freshly bound listener, 3e9 nanoseconds, which is three seconds. *)
Theorem FdListen_tcp_or_error (net : Net) (srv : Server) (fd : Z) :
  match net_FileListener net (os_NewFile fd "") with
  | inl (ListenerTCP _) =>
      (FdListen net srv fd).2 = None
      ∧ ∃ l, listener (FdListen net srv fd).1 = Some (ListenerTCP l)
             ∧ tcp_timeout l = Some accept_timeout
  | inl (ListenerOther _ _) =>
      (FdListen net srv fd).2 = Some (os_NewError "Broken listener isn't TCP")
  | inr err => (FdListen net srv fd).2 = Some err
  end
  ∧ match socketListen net srv with
    | (srv', None) =>
        ∃ l, listener srv' = Some (ListenerTCP l) ∧ tcp_timeout l = Some accept_timeout
    | (_, Some _) => True
    end
  ∧ accept_timeout = 3 * 10 ^ 9.
Proof.
  split; [|split; [|reflexivity]].
  - unfold FdListen.
    destruct (net_FileListener net (os_NewFile fd "")) as [[l|kind lfd]|err]; simpl; eauto.
  - destruct (socketListen net srv) as [srv' [err|]] eqn:E; [done|].
    by eapply socketListen_timeout.
Qed.

(** C10.  When the adopted descriptor wraps to a listener that is not
    a TCP listener, [FdListen] returns its error and leaves that
    listener in the server; [ListenAndServe] on that server then finds
    a listener, does not bind (its outcome is the same whatever the
    network would answer to a bind) and enters [serve] on a server
    whose listener is the adopted one, so that the [Accept] calls of
    the loop are made on it and on no other. *)
Theorem FdListen_failure_keeps_listener (net : Net) (srv : Server) (fd : Z)
    (kind : string) (lfd : Z) :
  net_FileListener net (os_NewFile fd "") = inl (ListenerOther kind lfd) →
  let srv' := (FdListen net srv fd).1 in
  (FdListen net srv fd).2 = Some (os_NewError "Broken listener isn't TCP")
  ∧ listener srv' = Some (ListenerOther kind lfd)
  ∧ ∃ srv'',
      (∀ net', ListenAndServe net' srv' = Serving (init_world srv''))
      ∧ listener srv'' = Some (ListenerOther kind lfd)
      ∧ ∃ w, run (init_world srv'') [ActServe; ActServe] = Some w
             ∧ pc w = PcAccept
             ∧ ∀ l r, is_Some (step w (ActAccept l r)) ↔ l = ListenerOther kind lfd.
Proof.
  intros Hfd. unfold FdListen. rewrite Hfd. simpl.
  split; [done|]. split; [done|].
  set (srv1 := set_listener (set_listenerFile srv (Some (os_NewFile fd "")))
                 (Some (ListenerOther kind lfd))).
  exists (if decide (Addr srv1 = "") then set_Addr srv1 ":http" else srv1).
  split; [|split].
  - intros net'. unfold ListenAndServe. by case_decide.
  - by case_decide.
  - assert (Hl : listener (if decide (Addr srv1 = "") then set_Addr srv1 ":http" else srv1)
                 = Some (ListenerOther kind lfd)) by by case_decide.
    generalize dependent (if decide (Addr srv1 = "") then set_Addr srv1 ":http" else srv1).
    intros srv2 Hl.
    eexists. split; [reflexivity|]. split; [reflexivity|].
    intros l r. simpl. unfold accept_step. simpl.
    rewrite Hl. case_decide as Hd.
    + split; [congruence|]. intros _. destruct r; eauto.
    + split; [by intros [? ?]|]. intros ->. by destruct Hd.
Qed.

Lemma FdListen_failure_keeps_listener_witness :
  net_FileListener sample_net (os_NewFile 7 "") = inl sample_unix
  ∧ (FdListen sample_net sample_fresh 7).2 = Some (os_NewError "Broken listener isn't TCP")
  ∧ listener (FdListen sample_net sample_fresh 7).1 = Some sample_unix
  ∧ ListenAndServe sample_net (FdListen sample_net sample_fresh 7).1
    = Serving (init_world (FdListen sample_net sample_fresh 7).1).
Proof.
  split; [reflexivity|].
  destruct (FdListen_failure_keeps_listener sample_net sample_fresh 7 "unix" 7 eq_refl)
    as (H1 & H2 & _).
  split; [exact H1|]. split; [exact H2|]. reflexivity.
Defined.

(** ** The handler, one connection at a time *)

Lemma emits_ret {A} (P : Event → Prop) (x : A) : emits P (mret x).
Proof. intros st. exists []. by rewrite app_nil_r. Qed.

Lemma emits_call (P : Event → Prop) (e : Event) : P e → emits P (call e).
Proof. intros He st. exists [e]. split; [done|]. by constructor. Qed.

Lemma emits_time (P : Event → Prop) (now : nat → Z) : emits P (time_Nanoseconds now).
Proof. intros st. exists []. by rewrite app_nil_r. Qed.

Lemma emits_bind {A B} (P : Event → Prop) (m : M A) (k : A → M B) :
  emits P m → (∀ x, emits P (k x)) → emits P (m ≫= k).
Proof.
  intros Hm Hk st. unfold mbind, M_bind.
  destruct (Hm st) as (tr1 & E1 & F1).
  destruct (m st) as [x st1]. simpl in E1.
  destruct (Hk x st1) as (tr2 & E2 & F2).
  exists (tr1 ++ tr2). split.
  - by rewrite E2, E1, app_assoc.
  - by apply Forall_app.
Qed.

Lemma emits_execute (P : Event → Prop) (now : nat → Z) (p : Pipeline) (request : Request) :
  P (EvExecute request) → emits P (Pipeline_execute now p request).
Proof.
  intros He st. exists [EvExecute request]. split; [|by constructor].
  unfold Pipeline_execute.
  by destruct (execute p _ request) as [[res request'] k].
Qed.

Lemma emits_weaken {A} (P Q : Event → Prop) (m : M A) :
  (∀ e, P e → Q e) → emits P m → emits Q m.
Proof.
  intros HPQ Hm st. destruct (Hm st) as (tr & E & F).
  exists tr. split; [done|]. by eapply Forall_impl.
Qed.

(** What one pass through the body of the request loop does, from any
    state: the clock readings it takes and the calls it makes. *)
Lemma serve_request_run (now : nat → Z) (srv : Server) (c : Conn) (startTime : Z)
    (req : HttpRequest) (st : HState) :
  let request0 :=
    appendPipelineStage (newRequest req c startTime)
      {| Name := "server.Init"; StartTime := startTime; EndTime := now (ticks st) |} in
  let r := execute (ServerPipeline srv) (λ i, now (S (ticks st) + i)%nat) request0 in
  let res := default (SimpleResponse req 404 None "Not Found") r.1.1 in
  let t1 := (S (ticks st) + r.2)%nat in
  let request1 :=
    finishRequest
      (finishPipelineStage
         (startPipelineStage r.1.2 "server.ResponseWrite" (now t1)) (now (S t1))) in
  serve_request now srv c startTime req st
  = (if decide (Header_Get (Header req) "Connection" ≠ "Keep-Alive") then false else true,
     {| ticks := S (S t1);
        events :=
          events st
          ++ [EvExecute request0; EvCloseRequestBody req; EvWrite res; EvFlush]
          ++ match ResBody res with Some _ => [EvCloseResponseBody] | None => [] end
          ++ EvRequestFinished request1
             :: (if RequestDoneCallback (ServerPipeline srv)
                 then [EvGoCallback request1] else []) |}).
Proof.
  intros request0 r res t1 request1.
  unfold serve_request, Pipeline_execute, Request_startPipelineStage,
    Request_finishPipelineStage, requestFinished, time_Nanoseconds, call,
    mbind, mret, M_bind, M_ret.
  simpl. fold request0.
  subst request1 t1 res r.
  destruct (execute (ServerPipeline srv) _ request0) as [[res request'] k]; simpl.
  destruct res as [res|]; simpl; [destruct (ResBody res)|];
    destruct (RequestDoneCallback _); simpl;
    repeat rewrite <- app_assoc; reflexivity.
Qed.

Lemma skeleton_app (tr1 tr2 : list Event) :
  skeleton (tr1 ++ tr2) = skeleton tr1 ++ skeleton tr2.
Proof. apply omap_app. Qed.

Lemma serve_request_skeleton (now : nat → Z) (srv : Server) (c : Conn) (startTime : Z)
    (req : HttpRequest) (st : HState) :
  skeleton (events (serve_request now srv c startTime req st).2)
  = skeleton (events st) ++ [TWrite; TFlush].
Proof.
  rewrite serve_request_run. simpl. rewrite skeleton_app. f_equal.
  destruct (execute _ _ _) as [[res request'] k]; simpl.
  destruct res as [res|]; simpl; [destruct (ResBody res)|];
    destruct (RequestDoneCallback _); reflexivity.
Qed.

Lemma serve_request_flag (now : nat → Z) (srv : Server) (c : Conn) (startTime : Z)
    (req : HttpRequest) (st : HState) :
  (serve_request now srv c startTime req st).1
  = if decide (keep_alive req) then true else false.
Proof.
  rewrite serve_request_run. simpl. unfold keep_alive.
  repeat case_decide; done.
Qed.

Lemma read_failed_run (srv : Server) (c : Conn) (err : error) (st : HState) :
  events (read_failed srv c err st).2
  = events st
    ++ EvReadRequest (ReadErr err)
       :: (if decide (err = io_ErrUnexpectedEOF) then []
           else [EvLog {| level := LError; format := "%s %v ERROR reading request: %v";
                          args := [serverLogPrefix srv; RemoteAddr c; error_text err] |}]).
Proof.
  unfold read_failed, Error, call, mbind, mret, M_bind, M_ret. simpl.
  repeat case_decide; try done; simpl; by rewrite <- app_assoc.
Qed.

(** While the requests ask for keep-alive the loop goes round: after
    the cycles of [reqs] it stands at its head again, about to read
    what follows. *)
Lemma request_loop_keep_alive (now : nat → Z) (srv : Server) (c : Conn) (startTime : Z)
    (reqs : list HttpRequest) (tail : list ReadResult) (n : nat) (st : HState) :
  Forall keep_alive reqs →
  ∃ st',
    request_loop now srv c startTime ((ReadOk <$> reqs) ++ tail) n st
    = request_loop now srv c startTime tail (length reqs + n) st'
    ∧ skeleton (events st') = skeleton (events st) ++ concat (cycle <$> reqs).
Proof.
  intros Hka. revert n st.
  induction Hka as [|req reqs Hreq _ IH]; intros n st.
  - exists st. split; [done|]. simpl. by rewrite app_nil_r.
  - simpl. unfold mbind at 1 2. unfold M_bind at 1 2. simpl.
    pose proof (serve_request_flag now srv c startTime req
                  {| ticks := ticks st; events := events st ++ [EvReadRequest (ReadOk req)] |})
      as Hflag.
    pose proof (serve_request_skeleton now srv c startTime req
                  {| ticks := ticks st; events := events st ++ [EvReadRequest (ReadOk req)] |})
      as Hsk.
    destruct (serve_request now srv c startTime req _) as [flag st1].
    simpl in Hflag, Hsk. rewrite decide_True in Hflag by done. subst flag.
    destruct (IH (S n) st1) as (st' & E & Hsk').
    exists st'. split.
    + etrans; [exact E|]. f_equal. lia.
    + rewrite Hsk', Hsk. simpl. rewrite skeleton_app. simpl.
      by rewrite <- !app_assoc.
Qed.

Lemma handler_events_unfold (now : nat → Z) (srv : Server) (c : Conn) :
  handler_events now srv c
  = match reader c 8192 with
    | Some err =>
        [EvLog {| level := LError; format := "%s Read buffer fail: %v";
                  args := [serverLogPrefix srv; error_text err] |}]
    | None =>
        events (request_loop now srv c (now 0%nat) (incoming c) 0
                  {| ticks := 1; events := [] |}).2
    end
    ++ [EvConnClose; EvWgDone].
Proof.
  unfold handler_events, handler, connectionFinished, Error, call, time_Nanoseconds,
    mbind, mret, M_bind, M_ret. simpl.
  destruct (reader c 8192) as [err|]; simpl; [done|].
  destruct (request_loop _ _ _ _ _ _ _) as [n st]. simpl.
  by rewrite <- app_assoc.
Qed.

Lemma writes_of_skeleton (tr : list Event) :
  length (writes_of tr) = length (filter (λ t, is_twrite t = true) (skeleton tr)).
Proof.
  induction tr as [|e tr IH]; [done|].
  destruct e; simpl; try done;
    unfold filter; simpl; try case_decide; try done; simpl; by f_equal.
Qed.

Lemma keep_alive_sample : keep_alive sample_keepalive ∧ ¬ keep_alive sample_plain.
Proof. split; [reflexivity|]. unfold keep_alive. by vm_compute. Qed.

(** C3.  A peer sends the requests [reqs], each asking for keep-alive,
    and then [last], which does not.  What can be observed of the
    handler is then one cycle per request, in order: the request is
    read, a response is written, the write buffer is flushed; after the
    cycle of [last] the connection is closed and the wait group is
    told.  So a response is written for each of the N+1 requests, the
    one for [last] included, no request is read before the response to
    the request before it has been written and flushed, nothing that
    the peer sent after [last] is read, and the close follows the last
    flush. *)
Theorem keep_alive_loop (now : nat → Z) (srv : Server) (c : Conn)
    (reqs : list HttpRequest) (last : HttpRequest) (rest : list ReadResult) :
  reader c 8192 = None →
  incoming c = (ReadOk <$> reqs) ++ ReadOk last :: rest →
  Forall keep_alive reqs →
  ¬ keep_alive last →
  skeleton (handler_events now srv c)
  = concat (cycle <$> reqs ++ [last]) ++ [TClose; TDone]
  ∧ length (writes_of (handler_events now srv c)) = S (length reqs).
Proof.
  intros Hrd Hin Hka Hlast.
  assert (Hsk : skeleton (handler_events now srv c)
                = concat (cycle <$> reqs ++ [last]) ++ [TClose; TDone]).
  { rewrite handler_events_unfold, Hrd, Hin, skeleton_app. f_equal.
    destruct (request_loop_keep_alive now srv c (now 0%nat) reqs (ReadOk last :: rest) 0
                {| ticks := 1; events := [] |} Hka) as (st' & E & Hsk').
    rewrite E. simpl. unfold mbind at 1 2. unfold M_bind at 1 2. simpl.
    pose proof (serve_request_flag now srv c (now 0%nat) last
                  {| ticks := ticks st'; events := events st' ++ [EvReadRequest (ReadOk last)] |})
      as Hflag.
    pose proof (serve_request_skeleton now srv c (now 0%nat) last
                  {| ticks := ticks st'; events := events st' ++ [EvReadRequest (ReadOk last)] |})
      as Hsk.
    destruct (serve_request now srv c (now 0%nat) last _) as [flag st1].
    simpl in Hflag, Hsk. rewrite decide_False in Hflag by done. subst flag. simpl.
    rewrite Hsk, skeleton_app, Hsk'. simpl.
    rewrite fmap_app, concat_app. simpl. by rewrite <- !app_assoc. }
  split; [exact Hsk|].
  rewrite writes_of_skeleton, Hsk.
  rewrite fmap_app, concat_app, !filter_app, !length_app. simpl.
  assert (Hn : length (filter (λ t, is_twrite t = true) (concat (cycle <$> reqs)))
               = length reqs).
  { clear. induction reqs as [|r reqs IH]; [done|].
    change (concat (cycle <$> r :: reqs))
      with (TRead (ReadOk r) :: TWrite :: TFlush :: concat (cycle <$> reqs)).
    rewrite filter_cons_False by done. rewrite filter_cons_True by done.
    rewrite filter_cons_False by done. simpl. by rewrite IH. }
  rewrite Hn. lia.
Qed.

Lemma keep_alive_loop_witness :
  reader sample_conn 8192 = None
  ∧ skeleton (handler_events sample_clock sample_server sample_conn)
    = cycle sample_keepalive ++ cycle sample_keepalive ++ cycle sample_plain
      ++ [TClose; TDone]
  ∧ length (writes_of (handler_events sample_clock sample_server sample_conn)) = 3%nat.
Proof.
  split; [reflexivity|].
  destruct (keep_alive_loop sample_clock sample_server sample_conn
              [sample_keepalive; sample_keepalive] sample_plain [] eq_refl eq_refl)
    as [H1 H2].
  - repeat constructor.
  - apply keep_alive_sample.
  - split; [exact H1|exact H2].
Defined.

Lemma logged_skeleton (tr : list Event) :
  logged tr = omap (λ t, match t with TLog l => Some l | _ => None end) (skeleton tr).
Proof.
  induction tr as [|e tr IH]; [done|].
  destruct e; simpl; try done. by f_equal.
Qed.

Lemma logged_cycles (reqs : list HttpRequest) (tl : list Tag) :
  omap (λ t, match t with TLog l => Some l | _ => None end) (concat (cycle <$> reqs) ++ tl)
  = omap (λ t, match t with TLog l => Some l | _ => None end) tl.
Proof. induction reqs as [|r reqs IH]; [done|]. simpl. exact IH. Qed.

Lemma handler_step_frame (i : nat) (w w' : World) :
  handler_step i w = Some w' →
  pc w' = pc w ∧ server w' = server w ∧ accepted w' = accepted w
  ∧ senders w' = senders w ∧ delivered w' = delivered w
  ∧ ∃ e rest, goroutines w !! i = Some (e :: rest)
              ∧ goroutines w' = <[i := rest]> (goroutines w).
Proof.
  unfold handler_step.
  destruct (goroutines w !! i) as [[|e rest]|] eqn:E; try discriminate.
  intros H.
  assert (∃ w0, Some w' = Some w0 ∧ pc w0 = pc w ∧ server w0 = server w
                ∧ accepted w0 = accepted w ∧ senders w0 = senders w
                ∧ delivered w0 = delivered w
                ∧ goroutines w0 = <[i := rest]> (goroutines w))
    as (w0 & [= ->] & Hpc & Hsrv & Hacc & Hsnd & Hdel & Hgs).
  { destruct e; try case_decide; try discriminate; eexists; (split; [symmetry; exact H|]);
      done. }
  repeat (split; [assumption|]). by exists e, rest.
Qed.

(** C4.  A peer sends the requests [reqs], each asking for keep-alive,
    and the next call of [http.ReadRequest] fails with [err].  The
    handler then leaves its loop: after the failed read it reads
    nothing more, whatever the peer sent, and goes on to close the
    connection.  It logs exactly one error line, naming the peer and
    the error, unless [err] is [io.ErrUnexpectedEOF], the error that
    stands for a stream closed by the peer, in which case it logs
    nothing.  A step of this handler leaves the accept loop and the
    other handlers where they are. *)
Theorem parse_error_exits_loop (now : nat → Z) (srv : Server) (c : Conn)
    (reqs : list HttpRequest) (err : error) (rest : list ReadResult) :
  reader c 8192 = None →
  incoming c = (ReadOk <$> reqs) ++ ReadErr err :: rest →
  Forall keep_alive reqs →
  let line := {| level := LError; format := "%s %v ERROR reading request: %v";
                 args := [serverLogPrefix srv; RemoteAddr c; error_text err] |} in
  skeleton (handler_events now srv c)
  = concat (cycle <$> reqs)
    ++ TRead (ReadErr err)
       :: (if decide (err = io_ErrUnexpectedEOF) then [] else [TLog line])
    ++ [TClose; TDone]
  ∧ logged (handler_events now srv c)
    = (if decide (err = io_ErrUnexpectedEOF) then [] else [line])
  ∧ ∀ w i w', handler_step i w = Some w' →
      pc w' = pc w ∧ ∀ j, j ≠ i → goroutines w' !! j = goroutines w !! j.
Proof.
  intros Hrd Hin Hka line.
  assert (Hsk : skeleton (handler_events now srv c)
                = concat (cycle <$> reqs)
                  ++ TRead (ReadErr err)
                     :: (if decide (err = io_ErrUnexpectedEOF) then [] else [TLog line])
                  ++ [TClose; TDone]).
  { rewrite handler_events_unfold, Hrd, Hin, skeleton_app.
    destruct (request_loop_keep_alive now srv c (now 0%nat) reqs (ReadErr err :: rest) 0
                {| ticks := 1; events := [] |} Hka) as (st' & E & Hsk').
    rewrite E. simpl. unfold mbind at 1. unfold M_bind at 1.
    pose proof (read_failed_run srv c err st') as Hrun.
    destruct (read_failed srv c err st') as [u st1]. simpl in Hrun. simpl.
    rewrite Hrun, skeleton_app, Hsk'. simpl.
    rewrite <- !app_assoc. f_equal. simpl. f_equal.
    by case_decide. }
  split; [exact Hsk|]. split.
  - rewrite logged_skeleton, Hsk, logged_cycles. by case_decide.
  - intros w i w' Hstep.
    destruct (handler_step_frame i w w' Hstep) as (Hpc & _ & _ & _ & _ & e & r & _ & Hg).
    split; [exact Hpc|]. intros j Hj. rewrite Hg. by apply list_lookup_insert_ne.
Qed.

Lemma parse_error_exits_loop_witness :
  reader sample_broken 8192 = None
  ∧ skeleton (handler_events sample_clock sample_server sample_broken)
    = cycle sample_keepalive
      ++ [TRead (ReadErr (ErrorString "malformed HTTP request"));
          TLog {| level := LError; format := "%s %v ERROR reading request: %v";
                  args := ["4242"; "10.0.0.2:5000"; "malformed HTTP request"] |};
          TClose; TDone].
Proof.
  split; [reflexivity|].
  destruct (parse_error_exits_loop sample_clock sample_server sample_broken
              [sample_keepalive] (ErrorString "malformed HTTP request") [] eq_refl eq_refl)
    as [H _].
  - repeat constructor.
  - exact H.
Defined.

(** The peer closes the stream where a request would start: the read
    fails with [io.ErrUnexpectedEOF] and nothing is logged. *)
Lemma peer_close_is_silent :
  skeleton (handler_events sample_clock sample_server
              {| RemoteAddr := "10.0.0.3:5000"; reader := λ _, None;
                 incoming := [ReadOk sample_keepalive] |})
  = cycle sample_keepalive ++ [TRead (ReadErr io_ErrUnexpectedEOF); TClose; TDone].
Proof. reflexivity. Qed.

(** C6.  Whenever the body of the request loop runs, in any state of
    the handler, and [execute] yields no response for the request
    context it is given, the response written to the connection is the
    one synthesized by [SimpleResponse(req, 404, nil, "Not Found")]:
    it is written and flushed right after the pipeline returns and the
    request body is closed, and it is the only response written in that
    pass through the loop. *)
Theorem default_not_found (now : nat → Z) (srv : Server) (c : Conn) (startTime : Z)
    (req : HttpRequest) (st : HState) :
  let request0 :=
    appendPipelineStage (newRequest req c startTime)
      {| Name := "server.Init"; StartTime := startTime; EndTime := now (ticks st) |} in
  (execute (ServerPipeline srv) (λ i, now (S (ticks st) + i)%nat) request0).1.1 = None →
  let res := SimpleResponse req 404 None "Not Found" in
  StatusCode res = 404 ∧ ResBody res = Some "Not Found"
  ∧ ∃ tail,
      events (serve_request now srv c startTime req st).2
      = events st
        ++ [EvExecute request0; EvCloseRequestBody req; EvWrite res; EvFlush;
            EvCloseResponseBody]
        ++ tail
      ∧ writes_of tail = [].
Proof.
  intros request0 Hnone res. split; [done|]. split; [done|].
  pose proof (serve_request_run now srv c startTime req st) as Hrun.
  cbv zeta in Hrun. subst request0. rewrite Hnone in Hrun. rewrite Hrun.
  eexists. split; [reflexivity|].
  by destruct (RequestDoneCallback _).
Qed.

Lemma default_not_found_witness :
  (execute (ServerPipeline sample_server) (λ i, sample_clock (2 + i)%nat)
     (appendPipelineStage (newRequest sample_plain sample_conn 100)
        {| Name := "server.Init"; StartTime := 100; EndTime := sample_clock 1 |})).1.1
  = None
  ∧ writes_of
      (events (serve_request sample_clock sample_server sample_conn 100 sample_plain
                 {| ticks := 1; events := [] |}).2)
    = [SimpleResponse sample_plain 404 None "Not Found"].
Proof.
  split; [reflexivity|].
  destruct (default_not_found sample_clock sample_server sample_conn 100 sample_plain
              {| ticks := 1; events := [] |} eq_refl) as (_ & _ & tail & E & Hw).
  rewrite E. unfold writes_of in *. rewrite !omap_app, Hw. reflexivity.
Defined.

(** The scenario of the spec: one GET without a [Connection] header on
    a pipeline that yields no response.  The handler reads it, writes
    the 404 response, flushes and closes the connection. *)
Lemma not_found_scenario :
  let c := {| RemoteAddr := "10.0.0.4:5000"; reader := λ _, None;
              incoming := [ReadOk sample_plain] |} in
  skeleton (handler_events sample_clock sample_server c)
  = [TRead (ReadOk sample_plain); TWrite; TFlush; TClose; TDone]
  ∧ writes_of (handler_events sample_clock sample_server c)
    = [SimpleResponse sample_plain 404 None "Not Found"].
Proof. split; reflexivity. Qed.

(** ** Stage timing *)

Lemma chronological_weaken (t t' : Z) (l : list PipelineStageStat) :
  t' ≤ t → chronological t l → chronological t' l.
Proof. destruct l as [|s l]; simpl; [done|]. intros ? (? & ? & ?). repeat split; [lia|done..]. Qed.

Lemma chronological_app (t : Z) (l1 l2 : list PipelineStageStat) :
  chronological t l1 → chronological (last_end t l1) l2 → chronological t (l1 ++ l2).
Proof.
  revert t. induction l1 as [|s l1 IH]; intros t; simpl; [done|].
  intros (? & ? & ?) ?. repeat split; [done..|]. by apply IH.
Qed.

Lemma last_end_app (t : Z) (l1 l2 : list PipelineStageStat) :
  last_end t (l1 ++ l2) = last_end (last_end t l1) l2.
Proof. revert t. induction l1 as [|s l1 IH]; intros t; simpl; [done|]. apply IH. Qed.

Lemma last_end_bound (t t' u : Z) (l : list PipelineStageStat) :
  t' ≤ u → last_end t l ≤ u → last_end t' l ≤ u.
Proof. destruct l as [|s l]; simpl; [lia|done]. Qed.

Lemma serve_request_well_timed (now : nat → Z) (srv : Server) (c : Conn) (req : HttpRequest) :
  monotone now → appends_stages (ServerPipeline srv) →
  emits (λ e, ∀ request, e = EvRequestFinished request →
                well_timed now (ServerPipeline srv) request)
    (serve_request now srv c (now 0%nat) req).
Proof.
  intros Hmono Hpipe st. rewrite serve_request_run. simpl.
  eexists. split; [reflexivity|].
  set (request0 := appendPipelineStage _ _).
  set (clk := λ i : nat, now (S (ticks st + i))).
  assert (Hclk : monotone clk) by (intros i j Hij; apply Hmono; lia).
  destruct (Hpipe clk request0 Hclk) as (extra & Hst & Hchr & Hend).
  set (r := execute (ServerPipeline srv) clk request0) in *.
  set (t1 := S (ticks st + r.2)).
  assert (Hgood : well_timed now (ServerPipeline srv)
            (finishRequest (finishPipelineStage
               (startPipelineStage r.1.2 "server.ResponseWrite" (now t1)) (now (S t1))))).
  { exists (ticks st), extra, (now t1), (now (S t1)). simpl in Hst |- *.
    rewrite Hst. simpl. split; [done|]. split.
    - split; [lia|]. split; [apply Hmono; lia|].
      apply chronological_app.
      + eapply chronological_weaken; [|exact Hchr]. apply Hmono. lia.
      + simpl. split; [|split; [apply Hmono; lia|done]].
        eapply last_end_bound; [|exact Hend].
        apply Hmono. unfold t1. lia.
    - exists clk, request0. split; [done|]. exact Hst. }
  repeat (apply Forall_cons; split; [by intros ? [=]|]).
  apply Forall_app. split.
  - destruct (ResBody _); repeat constructor; by intros ? [=].
  - apply Forall_cons. split; [by intros ? [= <-]|].
    destruct (RequestDoneCallback _); repeat constructor; by intros ? [=].
Qed.

Lemma read_failed_emits (P : Event → Prop) (srv : Server) (c : Conn) (err : error) :
  (∀ r, P (EvReadRequest r)) → (∀ l, P (EvLog l)) → emits P (read_failed srv c err).
Proof.
  intros Hr Hl st. rewrite read_failed_run. eexists. split; [reflexivity|].
  case_decide; repeat constructor; auto.
Qed.

Lemma request_loop_emits (P : Event → Prop) (now : nat → Z) (srv : Server) (c : Conn)
    (startTime : Z) (input : list ReadResult) (n : nat) :
  (∀ r, P (EvReadRequest r)) → (∀ l, P (EvLog l)) →
  (∀ req, emits P (serve_request now srv c startTime req)) →
  emits P (request_loop now srv c startTime input n).
Proof.
  intros Hr Hl Hreq. revert n.
  induction input as [|[req|err] input IH]; intros n; simpl.
  - apply emits_bind; [by apply read_failed_emits|]. intros _. apply emits_ret.
  - apply emits_bind; [by apply emits_call|]. intros _.
    apply emits_bind; [apply Hreq|]. intros [|]; [apply IH|apply emits_ret].
  - apply emits_bind; [by apply read_failed_emits|]. intros _. apply emits_ret.
Qed.

(** Every way through [handler] ends in the deferred
    [connectionFinished]; all that comes before is the buffer failure
    line or the calls of the request loop. *)
Lemma handler_events_emits (P : Event → Prop) (now : nat → Z) (srv : Server) (c : Conn) :
  (∀ r, P (EvReadRequest r)) → (∀ l, P (EvLog l)) →
  (∀ req, emits P (serve_request now srv c (now 0%nat) req)) →
  ∃ body, handler_events now srv c = body ++ [EvConnClose; EvWgDone] ∧ Forall P body.
Proof.
  intros Hr Hl Hreq. rewrite handler_events_unfold.
  destruct (reader c 8192) as [err|].
  - eexists. split; [reflexivity|]. repeat constructor. apply Hl.
  - destruct (request_loop_emits P now srv c (now 0%nat) (incoming c) 0 Hr Hl Hreq
                {| ticks := 1; events := [] |}) as (tr & E & F).
    exists tr. split; [|done]. by rewrite E.
Qed.

Lemma serve_request_not_cleanup (now : nat → Z) (srv : Server) (c : Conn) (startTime : Z)
    (req : HttpRequest) :
  emits not_cleanup (serve_request now srv c startTime req).
Proof.
  intros st. rewrite serve_request_run. simpl.
  eexists. split; [reflexivity|].
  repeat (apply Forall_cons; split; [done|]).
  apply Forall_app. split.
  - destruct (ResBody _); by repeat constructor.
  - destruct (RequestDoneCallback _); by repeat constructor.
Qed.

Lemma handler_events_cleanup (now : nat → Z) (srv : Server) (c : Conn) :
  ∃ body, handler_events now srv c = body ++ [EvConnClose; EvWgDone]
          ∧ Forall not_cleanup body.
Proof.
  apply handler_events_emits; [done..|]. intros req. apply serve_request_not_cleanup.
Qed.

(** C7.  On a clock that does not run backwards and with a pipeline
    that only appends chronological records, every request context
    that a handler hands to [requestFinished] has a stage sequence
    that begins with the record "server.Init", from the start time of
    the connection (the first clock reading of the handler) to the
    reading taken when the context had been built, and ends with the
    record "server.ResponseWrite".  In between are the records the
    pipeline appended to the sequence that held "server.Init" alone,
    as the pipeline left them.  The sequence is chronological: each
    record ends no earlier than it begins and begins no earlier than
    the record before it ended. *)
Theorem stage_timing_sequence (now : nat → Z) (srv : Server) (c : Conn) (request : Request) :
  monotone now →
  appends_stages (ServerPipeline srv) →
  request ∈ completed (handler_events now srv c) →
  ∃ (k : nat) (extra : list PipelineStageStat) (ws we : Z),
    let init := {| Name := "server.Init"; StartTime := now 0%nat; EndTime := now k |} in
    PipelineStageStats request
    = init :: extra ++ [{| Name := "server.ResponseWrite"; StartTime := ws; EndTime := we |}]
    ∧ chronological (now 0%nat) (PipelineStageStats request)
    ∧ ∃ clk request0,
        PipelineStageStats request0 = [init]
        ∧ PipelineStageStats (execute (ServerPipeline srv) clk request0).1.2 = init :: extra.
Proof.
  intros Hmono Hpipe Hin.
  destruct (handler_events_emits
              (λ e, ∀ request, e = EvRequestFinished request →
                               well_timed now (ServerPipeline srv) request)
              now srv c) as (body & E & F).
  - by intros ? ? [=].
  - by intros ? ? [=].
  - intros req. by apply serve_request_well_timed.
  - rewrite E in Hin. unfold completed in Hin.
    apply list_elem_of_omap in Hin as (e & He & Hreq).
    apply elem_of_app in He as [He|He].
    + rewrite Forall_forall in F. apply (F e He). by destruct e; simplify_eq.
    + apply elem_of_cons in He as [->|He]; [done|].
      apply elem_of_cons in He as [->|He]; [done|]. by apply elem_of_nil in He.
Qed.

Lemma sample_clock_monotone : monotone sample_clock.
Proof. intros i j Hij. unfold sample_clock. lia. Qed.

Lemma sample_pipeline_appends : appends_stages sample_pipeline.
Proof.
  intros clk request Hclk. eexists. split; [reflexivity|]. simpl.
  pose proof (Hclk 0%nat 1%nat). pose proof (Hclk 1%nat 2%nat). lia.
Qed.

Lemma stage_timing_sequence_witness :
  monotone sample_clock
  ∧ appends_stages (ServerPipeline sample_server)
  ∧ sample_finished ∈ completed (handler_events sample_clock sample_server sample_conn)
  ∧ chronological 100 (PipelineStageStats sample_finished).
Proof.
  assert (Hin : sample_finished
                ∈ completed (handler_events sample_clock sample_server sample_conn))
    by (vm_compute; constructor).
  split; [exact sample_clock_monotone|]. split; [exact sample_pipeline_appends|].
  split; [exact Hin|].
  destruct (stage_timing_sequence sample_clock sample_server sample_conn sample_finished
              sample_clock_monotone sample_pipeline_appends Hin)
    as (k & extra & ws & we & _ & Hchr & _).
  exact Hchr.
Defined.

(** ** The accept loop *)

Lemma count_not_cleanup (body : list Event) :
  Forall not_cleanup body → count is_done body = 0%nat ∧ count is_close body = 0%nat.
Proof.
  unfold count. induction 1 as [|e body [Hc Hd] _ [IH1 IH2]]; [done|].
  rewrite !filter_cons_False by congruence. done.
Qed.

Lemma count_app (p : Event → bool) (l1 l2 : list Event) :
  count p (l1 ++ l2) = (count p l1 + count p l2)%nat.
Proof. unfold count. by rewrite filter_app, length_app. Qed.

Lemma handler_events_one_done (now : nat → Z) (srv : Server) (c : Conn) :
  count is_done (handler_events now srv c) = 1%nat
  ∧ count is_close (handler_events now srv c) = 1%nat
  ∧ last (handler_events now srv c) = Some EvWgDone.
Proof.
  destruct (handler_events_cleanup now srv c) as (body & -> & F).
  destruct (count_not_cleanup body F) as [Hd Hc].
  rewrite !count_app, Hd, Hc. split; [done|]. split; [done|].
  change [EvConnClose; EvWgDone] with ([EvConnClose] ++ [EvWgDone]).
  by rewrite app_assoc, last_snoc.
Qed.

Lemma pending_done_app (gs : list (list Event)) (g : list Event) :
  pending_done (gs ++ [g]) = (pending_done gs + count is_done g)%nat.
Proof. unfold pending_done. rewrite sum_list_with_app. simpl. lia. Qed.

Lemma pending_done_pop (gs : list (list Event)) (i : nat) (e : Event) (rest : list Event) :
  gs !! i = Some (e :: rest) →
  pending_done gs
  = ((if is_done e then 1 else 0) + pending_done (<[i := rest]> gs))%nat.
Proof.
  unfold pending_done. revert i.
  induction gs as [|g gs IH]; intros [|i] Hi; simplify_eq/=.
  - unfold count. rewrite filter_cons. destruct (is_done e) eqn:E.
    + rewrite decide_True by done. simpl. lia.
    + rewrite decide_False by congruence. lia.
  - rewrite (IH i Hi). lia.
Qed.

Lemma concat_pop (gs : list (list Event)) (i : nat) (e : Event) (rest : list Event) :
  gs !! i = Some (e :: rest) →
  length (concat gs) = S (length (concat (<[i := rest]> gs))).
Proof.
  revert i. induction gs as [|g gs IH]; intros [|i] Hi; simplify_eq/=.
  - done.
  - rewrite !length_app, (IH i Hi). lia.
Qed.

Lemma pending_done_pos (gs : list (list Event)) :
  (0 < pending_done gs)%nat → ∃ i e rest, gs !! i = Some (e :: rest).
Proof.
  unfold pending_done. induction gs as [|g gs IH]; simpl; [lia|].
  destruct g as [|e rest].
  - intros H. destruct (IH H) as (i & e & rest & Hi). by exists (S i), e, rest.
  - intros _. by exists 0%nat, e, rest.
Qed.

Lemma pending_done_zero (gs : list (list Event)) :
  pending_done gs = 0%nat →
  Forall (λ g, g = [] ∨ last g = Some EvWgDone) gs →
  Forall (λ g, g = []) gs.
Proof.
  unfold pending_done. induction gs as [|g gs IH]; simpl; [done|].
  intros Hz Hall. apply Forall_cons in Hall as [Hg Hall].
  apply Forall_cons. split; [|apply IH; [lia|done]].
  destruct Hg as [->|Hl]; [done|]. exfalso.
  destruct g as [|e g] using rev_ind; [done|].
  rewrite last_snoc in Hl. injection Hl as ->.
  rewrite count_app in Hz. unfold count in Hz at 2.
  rewrite filter_cons_True in Hz by done. simpl in Hz. lia.
Qed.

Lemma handler_step_wg (i : nat) (w w' : World) (e : Event) (rest : list Event) :
  handler_step i w = Some w' →
  goroutines w !! i = Some (e :: rest) →
  wg w' = wg w - (if is_done e then 1 else 0)
  ∧ log w' = log w ++ match e with EvLog l => [l] | _ => [] end.
Proof.
  unfold handler_step. intros H Hi. rewrite Hi in H.
  destruct e; try case_decide; simplify_eq/=; rewrite ?app_nil_r; split; done || lia.
Qed.

Lemma handler_step_enabled (i : nat) (w : World) (e : Event) (rest : list Event) :
  goroutines w !! i = Some (e :: rest) →
  (is_done e = true → 1 ≤ wg w) →
  is_Some (handler_step i w).
Proof.
  unfold handler_step. intros -> Hwg.
  destruct e; try done. simpl in Hwg. rewrite decide_False; [done|]. specialize (Hwg eq_refl). lia.
Qed.

Lemma serve_inv_init (srv : Server) : serve_inv (init_world srv).
Proof. split; [done|]. split; [by constructor|]. by intros e [=]. Qed.

Lemma serve_inv_step (w w' : World) (a : Action) :
  serve_inv w → step w a = Some w' → serve_inv w'.
Proof.
  intros (Hwg & Hall & Hret) Hstep.
  destruct a as [|l r|now|i|]; simpl in Hstep.
  - unfold serve_step in Hstep.
    destruct (pc w) as [|[|]| |c|c| | |e] eqn:Hpc; try discriminate;
      try case_decide; try destruct (senders w); simplify_eq/=;
      (split; [simpl; lia|]); (split; [done|]); intros e' [=]; subst; done.
  - unfold accept_step in Hstep.
    destruct (pc w) eqn:Hpc; try discriminate.
    case_decide; [|discriminate].
    destruct r; simplify_eq/=; (split; [simpl; lia|]); (split; [done|]); by intros e' [=].
  - unfold go_step in Hstep.
    destruct (pc w) as [| | |c|c| | |e] eqn:Hpc; try discriminate. simplify_eq/=.
    destruct (handler_events_one_done now (server w) c) as (Hone & _ & Hlast).
    split; [|split].
    + simpl. rewrite pending_done_app, Hone. lia.
    + simpl. apply Forall_app. split; [done|]. apply Forall_singleton. by right.
    + by intros e' [=].
  - destruct (handler_step_frame i w w' Hstep)
      as (Hpc & _ & _ & _ & _ & e & rest & Hi & Hgs).
    destruct (handler_step_wg i w w' e rest Hstep Hi) as [Hwg' _].
    split; [|split].
    + rewrite Hwg', Hgs, Hpc, Hwg, (pending_done_pop _ _ _ _ Hi).
      destruct (is_done e); lia.
    + rewrite Hgs. apply Forall_insert; [done|].
      rewrite Forall_lookup in Hall. destruct (Hall i _ Hi) as [?|Hl]; [done|].
      destruct rest as [|e' rest]; [by left|by right].
    + rewrite Hpc. intros e' He'. destruct (Hret e' He') as [-> Hz].
      split; [done|]. rewrite Hwg'. destruct (is_done e) eqn:Hd; [|lia].
      exfalso. unfold handler_step in Hstep. rewrite Hi in Hstep.
      destruct e; try discriminate. rewrite decide_True in Hstep by lia. discriminate.
  - simplify_eq/=. split; [done|]. split; [done|]. exact Hret.
Qed.

Lemma serve_inv_run (w w' : World) (acts : list Action) :
  serve_inv w → run w acts = Some w' → serve_inv w'.
Proof.
  revert w. induction acts as [|a acts IH]; intros w Hinv Hrun; simpl in Hrun.
  - by simplify_eq.
  - destruct (step w a) as [w1|] eqn:Hstep; [|discriminate].
    eapply IH; [|exact Hrun]. by eapply serve_inv_step.
Qed.

Lemma step_server (w w' : World) (a : Action) :
  step w a = Some w' → server w' = server w.
Proof.
  destruct a as [|l r|now|i|]; simpl.
  - unfold serve_step.
    destruct (pc w) as [|[|]| |c|c| | |e]; try discriminate;
      try case_decide; try destruct (senders w); by intros; simplify_eq/=.
  - unfold accept_step. destruct (pc w); try discriminate.
    case_decide; [|discriminate]. destruct r; by intros; simplify_eq/=.
  - unfold go_step. destruct (pc w); try discriminate. by intros; simplify_eq/=.
  - intros H. by destruct (handler_step_frame i w w' H) as (_ & ? & _).
  - by intros; simplify_eq/=.
Qed.

Lemma run_server (w w' : World) (acts : list Action) :
  run w acts = Some w' → server w' = server w.
Proof.
  revert w. induction acts as [|a acts IH]; intros w Hrun; simpl in Hrun.
  - by simplify_eq.
  - destruct (step w a) as [w1|] eqn:Hstep; [|discriminate].
    rewrite (IH w1 Hrun). by eapply step_server.
Qed.

Lemma run_app (w : World) (acts1 acts2 : list Action) :
  run w (acts1 ++ acts2) = run w acts1 ≫= λ w1, run w1 acts2.
Proof.
  revert w. induction acts1 as [|a acts1 IH]; intros w; simpl; [done|].
  destruct (step w a); [apply IH|done].
Qed.

Lemma reachable_inv (srv : Server) (w : World) :
  reachable srv w → serve_inv w ∧ server w = srv.
Proof.
  intros [acts Hrun]. split.
  - eapply serve_inv_run; [apply serve_inv_init|exact Hrun].
  - by rewrite (run_server _ _ _ Hrun).
Qed.

(** C1.  In every state the accept loop can reach:
    - a handler, whatever its connection does, makes the calls
      [c.Close()] and [handlerWaitGroup.Done()] exactly once each, as
      its last two calls; when the read buffer cannot be allocated
      these follow the error line at once;
    - a successful [Accept] changes neither the counter nor the
      handlers; the next statement of [serve] adds one to the counter,
      and only the statement after that starts the handler;
    - a call of a handler changes the counter only if it is [Done],
      which takes one from it;
    - the counter is the number of handlers that have still to call
      [Done], plus one between [Add(1)] and the [go] statement; so it
      is zero once every handler has made all its calls. *)
Theorem handler_counter_balanced (srv : Server) (w : World) :
  reachable srv w →
  (∀ now c, ∃ body,
      handler_events now srv c = body ++ [EvConnClose; EvWgDone]
      ∧ count is_close body = 0%nat ∧ count is_done body = 0%nat)
  ∧ (∀ now c err, reader c 8192 = Some err →
       handler_events now srv c
       = [EvLog {| level := LError; format := "%s Read buffer fail: %v";
                   args := [serverLogPrefix srv; error_text err] |};
          EvConnClose; EvWgDone])
  ∧ (∀ l c w1, step w (ActAccept l (AcceptConn c)) = Some w1 →
       pc w1 = PcAdd c ∧ wg w1 = wg w ∧ goroutines w1 = goroutines w)
  ∧ (∀ c, pc w = PcAdd c →
       ∃ w1, step w ActServe = Some w1
             ∧ wg w1 = wg w + 1 ∧ goroutines w1 = goroutines w
             ∧ ∀ now, ∃ w2, step w1 (ActGo now) = Some w2
                            ∧ wg w2 = wg w1
                            ∧ goroutines w2 = goroutines w ++ [handler_events now srv c])
  ∧ (∀ i e rest w', goroutines w !! i = Some (e :: rest) →
       step w (ActHandler i) = Some w' →
       wg w' = wg w - (if is_done e then 1 else 0))
  ∧ wg w = Z.of_nat (pending_done (goroutines w))
           + match pc w with PcGo _ => 1 | _ => 0 end
  ∧ (Forall (λ g, g = []) (goroutines w) → (∀ c, pc w ≠ PcGo c) → wg w = 0).
Proof.
  intros Hreach. destruct (reachable_inv srv w Hreach) as [(Hwg & Hall & Hret) Hsrv].
  split; [|split; [|split; [|split; [|split; [|split]]]]].
  - intros now c. destruct (handler_events_cleanup now srv c) as (body & E & F).
    exists body. split; [done|]. destruct (count_not_cleanup body F). done.
  - intros now c err Hrd. by rewrite handler_events_unfold, Hrd.
  - intros l c w1. simpl. unfold accept_step.
    destruct (pc w); try discriminate. case_decide; [|discriminate].
    by intros; simplify_eq/=.
  - intros c Hpc. simpl. unfold serve_step. rewrite Hpc.
    eexists. split; [reflexivity|]. split; [done|]. split; [done|].
    intros now. eexists. split; [reflexivity|]. simpl. by rewrite Hsrv.
  - intros i e rest w' Hi Hstep. simpl in Hstep.
    by destruct (handler_step_wg i w w' e rest Hstep Hi).
  - exact Hwg.
  - intros Hdone Hpc. rewrite Hwg.
    assert (pending_done (goroutines w) = 0%nat) as ->.
    { clear -Hdone. unfold pending_done.
      induction Hdone as [|g gs -> _ IH]; [done|]. simpl. exact IH. }
    destruct (pc w); try done. by destruct (Hpc c).
Qed.

Lemma sample_select_reachable : reachable sample_server sample_select.
Proof. exists sample_schedule. vm_compute. reflexivity. Qed.

Lemma handler_counter_balanced_witness :
  reachable sample_server sample_select
  ∧ wg sample_select = 1
  ∧ length (goroutines sample_select) = 1%nat.
Proof.
  split; [exact sample_select_reachable|].
  destruct (handler_counter_balanced sample_server sample_select sample_select_reachable)
    as (_ & _ & _ & _ & _ & Hwg & _).
  split; [|vm_compute; reflexivity].
  rewrite Hwg. vm_compute. reflexivity.
Defined.

(** C8.  [Accept] returns the error [e].  Then [serve] goes on to its
    [select] with the counter, the handlers and the accepted
    connections as they were: no handler is started.  It logs nothing
    when [e] is a [*net.OpError] that is both a timeout and temporary,
    and one error line otherwise.  The [select] then decides alone
    whether the loop goes round: with no sender waiting on
    [stopAccepting], [serve] stands at [Accept] again two statements
    later. *)
Theorem accept_error_continues (w : World) (l : Listener) (e : error) :
  pc w = PcAccept →
  listener (server w) = Some l →
  ∃ w1,
    step w (ActAccept l (AcceptErr e)) = Some w1
    ∧ pc w1 = PcSelect
    ∧ wg w1 = wg w ∧ goroutines w1 = goroutines w ∧ accepted w1 = accepted w
    ∧ log w1
      = log w
        ++ match e with
           | OpError true true _ => []
           | _ => [{| level := LError; format := "%s SERVER Accept Error: %v";
                      args := [serverLogPrefix (server w); error_text e] |}]
           end
    ∧ (∃ w2, step w1 ActServe = Some w2
             ∧ pc w2 = PcLoop (if decide (senders w = 0%nat) then true else false))
    ∧ (senders w = 0%nat → run w1 [ActServe; ActServe] = Some (set_pc w1 PcAccept)).
Proof.
  intros Hpc Hl. simpl. unfold accept_step. rewrite Hpc, decide_True by done.
  eexists. split; [reflexivity|]. split; [done|]. split; [done|]. split; [done|].
  split; [done|]. split; [|split].
  - simpl. f_equal. by destruct e as [|[|] [|] msg| |].
  - simpl. unfold serve_step. simpl. destruct (senders w); eexists; by split.
  - intros Hs. simpl. unfold serve_step. simpl. rewrite Hs. reflexivity.
Qed.

Lemma accept_error_continues_witness :
  pc sample_accepting = PcAccept
  ∧ listener (server sample_accepting)
    = Some (ListenerTCP (SetTimeout sample_tcp accept_timeout))
  ∧ ∃ w1, step sample_accepting
            (ActAccept (ListenerTCP (SetTimeout sample_tcp accept_timeout))
               (AcceptErr sample_timeout)) = Some w1
          ∧ pc w1 = PcSelect ∧ log w1 = [] ∧ wg w1 = 0 ∧ goroutines w1 = [].
Proof.
  split; [reflexivity|]. split; [reflexivity|].
  destruct (accept_error_continues sample_accepting
              (ListenerTCP (SetTimeout sample_tcp accept_timeout))
              sample_timeout eq_refl eq_refl)
    as (w1 & Hstep & Hpc & Hwg & Hgs & _ & Hlog & _).
  exists w1. split; [exact Hstep|]. split; [exact Hpc|].
  split; [exact Hlog|]. split; [exact Hwg|exact Hgs].
Defined.

(** ** Draining *)

(** Once [serve] has left its loop it stays out of it: no step accepts
    a connection or starts a handler, and every step of [serve] or of
    a handler uses up the measure. *)
Lemma draining_step (w w' : World) (a : Action) :
  draining w → step w a = Some w' →
  draining w'
  ∧ accepted w' = accepted w
  ∧ length (goroutines w') = length (goroutines w)
  ∧ (is_stop a = false → (drain_measure w' < drain_measure w)%nat).
Proof.
  intros Hd Hstep. destruct a as [|l r|now|i|]; simpl in Hstep.
  - unfold serve_step in Hstep.
    destruct Hd as [Hpc|[Hpc|Hpc]]; rewrite Hpc in Hstep; try discriminate.
    + simplify_eq/=. split; [by right; left|]. split; [done|]. split; [done|].
      intros _. unfold drain_measure. simpl. rewrite Hpc. lia.
    + case_decide; [|discriminate]. simplify_eq/=.
      split; [by right; right|]. split; [done|]. split; [done|].
      intros _. unfold drain_measure. simpl. rewrite Hpc. lia.
  - unfold accept_step in Hstep.
    destruct Hd as [Hpc|[Hpc|Hpc]]; rewrite Hpc in Hstep; discriminate.
  - unfold go_step in Hstep.
    destruct Hd as [Hpc|[Hpc|Hpc]]; rewrite Hpc in Hstep; discriminate.
  - destruct (handler_step_frame i w w' Hstep)
      as (Hpc & _ & Hacc & _ & _ & e & rest & Hi & Hgs).
    split; [unfold draining; by rewrite Hpc|]. split; [done|].
    split; [by rewrite Hgs, length_insert|].
    intros _. unfold drain_measure. rewrite Hpc, Hgs, (concat_pop _ _ _ _ Hi). lia.
  - simplify_eq/=. done.
Qed.

Lemma draining_run (w w' : World) (acts : list Action) :
  draining w → run w acts = Some w' →
  draining w'
  ∧ accepted w' = accepted w
  ∧ length (goroutines w') = length (goroutines w)
  ∧ (length (filter (λ a, is_stop a = false) acts) + drain_measure w'
     ≤ drain_measure w)%nat.
Proof.
  revert w. induction acts as [|a acts IH]; intros w Hd Hrun; simpl in Hrun.
  - simplify_eq. repeat split; try done.
  - destruct (step w a) as [w1|] eqn:Hstep; [|discriminate].
    destruct (draining_step w w1 a Hd Hstep) as (Hd1 & Ha1 & Hl1 & Hm1).
    destruct (IH w1 Hd1 Hrun) as (Hd' & Ha' & Hl' & Hm').
    split; [done|]. split; [congruence|]. split; [congruence|].
    rewrite filter_cons. destruct (is_stop a) eqn:Hs.
    + rewrite decide_False by congruence.
      assert (drain_measure w1 = drain_measure w); [|lia].
      destruct a; try discriminate. by simplify_eq/=.
    + rewrite decide_True by done. specialize (Hm1 eq_refl). simpl. lia.
Qed.

(** While [serve] has left its loop and has not returned, [serve] or a
    handler can take a step: [Wait] blocks only while a handler has
    still to call [Done], and such a handler can make its next call. *)
Lemma draining_progress (w : World) :
  serve_inv w → draining w →
  pc w = PcReturned None
  ∨ ∃ a w', is_stop a = false ∧ step w a = Some w'.
Proof.
  intros (Hwg & Hall & Hret) [Hpc|[Hpc|Hpc]]; [right|right|by left].
  - exists ActServe. simpl. unfold serve_step. rewrite Hpc. eauto.
  - destruct (decide (wg w = 0)) as [Hz|Hnz].
    + exists ActServe. simpl. unfold serve_step. rewrite Hpc, decide_True by done. eauto.
    + rewrite Hpc in Hwg.
      destruct (pending_done_pos (goroutines w)) as (i & e & rest & Hi); [lia|].
      destruct (handler_step_enabled i w e rest Hi) as [w' Hw']; [lia|].
      exists (ActHandler i), w'. by split.
Qed.

(** From any state in which [serve] has left its loop, [serve] can
    return. *)
Lemma draining_returns (w : World) :
  serve_inv w → draining w →
  ∃ acts w', run w acts = Some w' ∧ pc w' = PcReturned None.
Proof.
  remember (drain_measure w) as n eqn:Hn. revert w Hn.
  induction n as [n IH] using lt_wf_ind. intros w Hn Hinv Hd.
  destruct (draining_progress w Hinv Hd) as [Hret|(a & w1 & Hs & Hstep)].
  - exists [], w. by split.
  - destruct (draining_step w w1 a Hd Hstep) as (Hd1 & _ & _ & Hm).
    destruct (IH (drain_measure w1)) with (w := w1) as (acts & w' & Hrun & Hpc).
    + subst n. by apply Hm.
    + done.
    + by eapply serve_inv_step.
    + done.
    + exists (a :: acts), w'. simpl. rewrite Hstep. by split.
Qed.

(** After [serve] has returned with every handler finished, nothing
    but calls of [StopAccepting] can happen, and all they do is to
    block. *)
Lemma returned_frozen (w w' : World) (e : option error) (acts : list Action) :
  pc w = PcReturned e →
  Forall (λ g, g = []) (goroutines w) →
  run w acts = Some w' →
  w' = set_stop w (senders w + length acts) (delivered w).
Proof.
  intros Hpc Hgs. revert w Hpc Hgs.
  induction acts as [|a acts IH]; intros w Hpc Hgs Hrun; simpl in Hrun.
  - injection Hrun as <-. destruct w. unfold set_stop. simpl. f_equal. lia.
  - destruct (step w a) as [w1|] eqn:Hstep; [|discriminate].
    assert (w1 = StopAccepting w) as ->.
    { destruct a as [|l r|now|i|]; simpl in Hstep.
      - unfold serve_step in Hstep. by rewrite Hpc in Hstep.
      - unfold accept_step in Hstep. by rewrite Hpc in Hstep.
      - unfold go_step in Hstep. by rewrite Hpc in Hstep.
      - destruct (handler_step_frame i w w1 Hstep)
          as (_ & _ & _ & _ & _ & e' & rest & Hi & _).
        rewrite Forall_lookup in Hgs. by specialize (Hgs i _ Hi).
      - by simplify_eq. }
    rewrite (IH (StopAccepting w) Hpc Hgs Hrun).
    unfold set_stop, StopAccepting. simpl. f_equal. lia.
Qed.

(** C2.  [serve] stands at its [select] while a caller waits in
    [StopAccepting].  Its next step receives the signal and leaves the
    loop.  From then on, along every schedule:
    - no connection is accepted and no handler is started ([Accept]
      and [go] cannot execute, the accepted connections and the number
      of handlers stay as they were);
    - the counter is the number of handlers that have still to call
      [Done], and [Wait] can execute exactly when it is zero;
    - when [serve] has returned, its result is nil, the counter is
      zero and every handler has made all its calls;
    - until [serve] has returned, [serve] or a handler can take a
      step, and they take no more steps than [drain_measure] says, so
      that [serve] does return; in particular some schedule makes it
      return. *)
Theorem shutdown_drains (srv : Server) (w : World) :
  reachable srv w →
  pc w = PcSelect →
  (0 < senders w)%nat →
  ∃ w1,
    step w ActServe = Some w1
    ∧ pc w1 = PcLoop false
    ∧ ∀ acts w', run w1 acts = Some w' →
        accepted w' = accepted w
        ∧ length (goroutines w') = length (goroutines w)
        ∧ (∀ l r, step w' (ActAccept l r) = None)
        ∧ (∀ now, step w' (ActGo now) = None)
        ∧ wg w' = Z.of_nat (pending_done (goroutines w'))
        ∧ (pc w' = PcWait → (is_Some (step w' ActServe) ↔ wg w' = 0))
        ∧ (∀ e, pc w' = PcReturned e →
             e = None ∧ wg w' = 0 ∧ Forall (λ g, g = []) (goroutines w'))
        ∧ (pc w' = PcReturned None ∨ ∃ a w'', is_stop a = false ∧ step w' a = Some w'')
        ∧ (length (filter (λ a, is_stop a = false) acts) ≤ drain_measure w1)%nat
        ∧ ∃ acts' w'', run w' acts' = Some w'' ∧ pc w'' = PcReturned None.
Proof.
  intros Hreach Hpc Hs.
  destruct (reachable_inv srv w Hreach) as [Hinv _].
  destruct (senders w) as [|n] eqn:Hn; [lia|].
  assert (Hstep : step w ActServe
                  = Some (set_pc (set_stop w n (S (delivered w))) (PcLoop false))).
  { simpl. unfold serve_step. by rewrite Hpc, Hn. }
  eexists. split; [exact Hstep|]. split; [done|].
  intros acts w' Hrun.
  assert (Hd1 : draining (set_pc (set_stop w n (S (delivered w))) (PcLoop false)))
    by by left.
  pose proof (serve_inv_step _ _ _ Hinv Hstep) as Hinv1.
  pose proof (serve_inv_run _ _ _ Hinv1 Hrun) as Hinv'.
  destruct (draining_run _ _ _ Hd1 Hrun) as (Hd' & Hacc & Hlen & Hm).
  destruct Hinv' as (Hwg & Hall & Hret).
  assert (Hwg' : wg w' = Z.of_nat (pending_done (goroutines w'))).
  { rewrite Hwg. destruct Hd' as [E|[E|E]]; rewrite E; lia. }
  split; [done|]. split; [done|]. split; [|split; [|split; [|split; [|split; [|split; [|split]]]]]].
  - intros l r. simpl. unfold accept_step. by destruct Hd' as [E|[E|E]]; rewrite E.
  - intros now. simpl. unfold go_step. by destruct Hd' as [E|[E|E]]; rewrite E.
  - exact Hwg'.
  - intros E. simpl. unfold serve_step. rewrite E. case_decide.
    + split; [done|eauto].
    + split; [by intros [? ?]|done].
  - intros e E. destruct (Hret e E) as [-> Hz]. split; [done|]. split; [done|].
    apply pending_done_zero; [lia|done].
  - by apply draining_progress.
  - lia.
  - by apply draining_returns.
Qed.

Lemma shutdown_drains_witness :
  reachable sample_server sample_select
  ∧ pc sample_select = PcSelect
  ∧ (0 < senders sample_select)%nat
  ∧ ∃ w1, step sample_select ActServe = Some w1
          ∧ pc w1 = PcLoop false
          ∧ ∃ acts w', run w1 acts = Some w' ∧ pc w' = PcReturned None.
Proof.
  assert (Hs : (0 < senders sample_select)%nat) by (vm_compute; lia).
  split; [exact sample_select_reachable|]. split; [reflexivity|]. split; [exact Hs|].
  destruct (shutdown_drains sample_server sample_select sample_select_reachable
              eq_refl Hs) as (w1 & Hstep & Hpc & Hall).
  exists w1. split; [exact Hstep|]. split; [exact Hpc|].
  destruct (Hall [] w1 eq_refl) as (_ & _ & _ & _ & _ & _ & _ & _ & _ & Hret).
  exact Hret.
Defined.

(** ** Shutdown requested twice *)

Lemma sample_stopped_reachable : reachable sample_server sample_stopped.
Proof. exists sample_stop_schedule. vm_compute. reflexivity. Qed.

(** C5, counterexample.  [serve] has received one stop signal and has
    returned; [StopAccepting] is called again.  Whatever happens next,
    that call does not return: no further send on [stopAccepting] is
    ever received. *)
Lemma second_stop_never_completes :
  pc sample_stopped = PcReturned None
  ∧ delivered sample_stopped = 1%nat
  ∧ ¬ ∃ acts w',
        run (StopAccepting sample_stopped) acts = Some w'
        ∧ (delivered sample_stopped < delivered w')%nat.
Proof.
  split; [reflexivity|]. split; [reflexivity|].
  intros (acts & w' & Hrun & Hlt).
  rewrite (returned_frozen (StopAccepting sample_stopped) w' None acts) in Hlt.
  - simpl in Hlt. lia.
  - reflexivity.
  - vm_compute. constructor.
  - exact Hrun.
Qed.

(** C5, as the code has it.  A stop signal sent while [serve] runs is
    received by the [select] of the loop: the call of [StopAccepting]
    returns and [serve] leaves its loop.  Once [serve] has returned, a
    further call of [StopAccepting] changes nothing in the server (the
    program counter, the counter of the wait group, the handlers, the
    accepted connections and the log stay as they are), and it does
    not return: the world differs only by the senders that are
    blocked, the calls made since included. *)
Theorem stop_once_then_blocked (srv : Server) (w : World) :
  reachable srv w →
  (pc w = PcSelect → (0 < senders w)%nat →
   ∃ w1, step w ActServe = Some w1
         ∧ pc w1 = PcLoop false
         ∧ delivered w1 = S (delivered w)
         ∧ S (senders w1) = senders w)
  ∧ (∀ e, pc w = PcReturned e →
       ∀ acts w', run (StopAccepting w) acts = Some w' →
         w' = set_stop w (S (senders w) + length acts) (delivered w)).
Proof.
  intros Hreach. destruct (reachable_inv srv w Hreach) as [(Hwg & Hall & Hret) _].
  split.
  - intros Hpc Hs. destruct (senders w) as [|n] eqn:Hn; [lia|].
    simpl. unfold serve_step. rewrite Hpc, Hn. eexists. by split.
  - intros e Hpc acts w' Hrun.
    destruct (Hret e Hpc) as [-> Hz].
    assert (Hgs : Forall (λ g, g = []) (goroutines w)).
    { apply pending_done_zero; [|done]. rewrite Hpc in Hwg. lia. }
    by rewrite (returned_frozen (StopAccepting w) w' None acts Hpc Hgs Hrun).
Qed.

Lemma stop_once_then_blocked_witness :
  reachable sample_server sample_stopped
  ∧ pc sample_stopped = PcReturned None
  ∧ StopAccepting (StopAccepting sample_stopped)
    = set_stop sample_stopped (S (senders sample_stopped) + 1) (delivered sample_stopped).
Proof.
  split; [exact sample_stopped_reachable|]. split; [reflexivity|].
  destruct (stop_once_then_blocked sample_server sample_stopped sample_stopped_reachable)
    as [_ H].
  exact (H None eq_refl [ActStopAccepting] (StopAccepting (StopAccepting sample_stopped))
           eq_refl).
Defined.

(** The test of the handler is on the exact value "Keep-Alive": a
    request whose header reads "keep-alive" ends the loop. *)
Lemma lowercase_is_not_keep_alive :
  ¬ keep_alive {| Method := "GET"; RawURL := "/";
                  Header := {[ "Connection" := ["keep-alive"] ]} |}.
Proof. unfold keep_alive. by vm_compute. Qed.

(** * Further properties *)

(** ** The rest of the bootstrap *)

Lemma socketListen_Addr (net : Net) (srv : Server) :
  Addr (socketListen net srv).1 = Addr srv.
Proof.
  unfold socketListen.
  destruct (net_ResolveTCPAddr net "tcp" (Addr srv)) as [la|]; [|done].
  destruct (net_ListenTCP net "tcp" la) as [l|]; [|done].
  destruct (tcp_File net l) as [f|]; [|done].
  by case_decide.
Qed.




(** X3.  [socketListen] is not undone when it fails after binding: if
    the bound listener cannot give its file, or the file cannot be
    made non-blocking, the error is returned and the bound listener
    stays in the server as [net.ListenTCP] made it, with no accept
    timeout set by the server.  [ListenAndServe] on that server then
    does not bind again, whatever the network would answer, and serves
    on that listener. *)
Theorem socketListen_failure_after_bind (net : Net) (srv : Server) (la : string)
    (l : TCPListener) :
  net_ResolveTCPAddr net "tcp" (Addr srv) = inl la →
  net_ListenTCP net "tcp" la = inl l →
  (∃ err, tcp_File net l = inr err)
  ∨ (∃ f, tcp_File net l = inl f ∧ syscall_SetNonblock net (Fd f) true ≠ 0) →
  Addr srv ≠ "" →
  let srv' := (socketListen net srv).1 in
  is_Some (socketListen net srv).2
  ∧ listener srv' = Some (ListenerTCP l)
  ∧ ∀ net', ListenAndServe net' srv' = Serving (init_world srv').
Proof.
  intros Hres Hbind Hfail Haddr srv'.
  assert (Hl : listener srv' = Some (ListenerTCP l) ∧ is_Some (socketListen net srv).2).
  { subst srv'. unfold socketListen. rewrite Hres, Hbind.
    destruct Hfail as [[err Hf]|(f & Hf & Hnb)]; rewrite Hf.
    - by split.
    - rewrite decide_True by done. by split. }
  destruct Hl as [Hl Herr]. split; [exact Herr|]. split; [exact Hl|].
  intros net'. unfold ListenAndServe.
  assert (Ha : Addr srv' = Addr srv) by apply socketListen_Addr.
  rewrite decide_False by congruence. by rewrite Hl.
Qed.

Lemma socketListen_failure_after_bind_witness :
  (∃ err, tcp_File sample_net_nofile
            {| tcp_fd := 9; tcp_addr := ":8080"; tcp_timeout := None |} = inr err)
  ∧ (socketListen sample_net_nofile sample_fresh).2
    = Some (ErrorString "dup: too many open files")
  ∧ listener (socketListen sample_net_nofile sample_fresh).1
    = Some (ListenerTCP {| tcp_fd := 9; tcp_addr := ":8080"; tcp_timeout := None |}).
Proof.
  assert (Hf : ∃ err, tcp_File sample_net_nofile
                        {| tcp_fd := 9; tcp_addr := ":8080"; tcp_timeout := None |} = inr err)
    by by eexists.
  split; [exact Hf|]. split; [reflexivity|].
  assert (Ha : Addr sample_fresh ≠ "") by done.
  destruct (socketListen_failure_after_bind sample_net_nofile sample_fresh ":8080"
              {| tcp_fd := 9; tcp_addr := ":8080"; tcp_timeout := None |}
              eq_refl eq_refl (or_introl Hf) Ha) as (_ & H & _).
  exact H.
Defined.

Lemma ListenAndServe_unfold (net : Net) (srv : Server) :
  ListenAndServe net srv
  = let srv0 := if decide (Addr srv = "") then set_Addr srv ":http" else srv in
    match listener srv0 with
    | None =>
        match socketListen net srv0 with
        | (s, Some err) => Returned s err
        | (s, None) => Serving (init_world s)
        end
    | Some _ => Serving (init_world srv0)
    end.
Proof. reflexivity. Qed.

(** X4.  [ListenAndServe] enters [serve] only on a server that has a
    listener and a non-empty address, in the state in which [serve]
    starts (counter at zero, no handler, channels empty).  When it
    returns an error instead, the server had no listener and the error
    is the one of [socketListen] on the server with its address
    defaulted; an empty address is replaced by ":http" and no other
    address is touched. *)
Theorem ListenAndServe_outcome (net : Net) (srv : Server) :
  let srv0 := if decide (Addr srv = "") then set_Addr srv ":http" else srv in
  Addr srv0 = (if decide (Addr srv = "") then ":http" else Addr srv)
  ∧ match ListenAndServe net srv with
    | Serving w =>
        w = init_world (server w)
        ∧ is_Some (listener (server w))
        ∧ Addr (server w) = Addr srv0
        ∧ (is_Some (listener srv) → server w = srv0)
    | Returned s e =>
        listener srv = None ∧ socketListen net srv0 = (s, Some e)
    end.
Proof.
  intros srv0. split; [subst srv0; by case_decide|].
  rewrite ListenAndServe_unfold. fold srv0. cbv zeta.
  assert (Hl : listener srv0 = listener srv) by (subst srv0; by case_decide).
  destruct (listener srv0) as [l|] eqn:El.
  - simpl. split; [done|]. split; [by rewrite El|]. done.
  - pose proof (socketListen_Addr net srv0) as Ha.
    destruct (socketListen net srv0) as [s [e|]] eqn:E.
    + by split.
    + destruct (socketListen_timeout net srv0 s E) as (l & Hs & _).
      simpl. split; [done|]. split; [by rewrite Hs|]. split; [exact Ha|].
      rewrite <- Hl. by intros [? ?].
Qed.

(** X5.  A server made by [NewServer] has the address ":" followed by
    the port in decimal, which is never empty, no listener and no
    descriptor.  So [ListenAndServe] on it never falls back to ":http":
    it binds that address, and returns the error of the bind or serves
    on the server that [socketListen] left. *)
Theorem NewServer_binds_port (net : Net) (port : Z) (pipeline : Pipeline) (pid : Z) :
  let srv := NewServer port pipeline pid in
  Addr srv = ":" +:+ pretty port
  ∧ Addr srv ≠ ""
  ∧ listener srv = None
  ∧ SocketFd srv = None
  ∧ ListenAndServe net srv
    = match socketListen net srv with
      | (s, Some err) => Returned s err
      | (s, None) => Serving (init_world s)
      end.
Proof.
  intros srv. split; [done|]. split; [done|]. split; [done|]. split; [done|].
  rewrite ListenAndServe_unfold. cbv zeta. by rewrite decide_False.
Qed.

Lemma NewServer_sample_address :
  Addr (NewServer 8080 sample_pipeline 4242) = ":8080"
  ∧ logPrefix (NewServer 8080 sample_pipeline 4242) = "4242".
Proof. split; by vm_compute. Qed.

(** X6.  [ListenAndServeTLS] loads the key pair before it touches the
    network: when the key pair cannot be loaded it returns that error
    whatever the network would answer, and the server keeps its
    listener and its descriptor file; only an empty address has become
    ":https". *)
Theorem ListenAndServeTLS_bad_key_pair (net : Net) (load : string → string → Certificate + error)
    (srv : Server) (certFile keyFile : string) (err : error) :
  load certFile keyFile = inr err →
  let srv0 := if decide (Addr srv = "") then set_Addr srv ":https" else srv in
  ListenAndServeTLS net load srv certFile keyFile = TLSReturned srv0 err
  ∧ (∀ net', ListenAndServeTLS net' load srv certFile keyFile = TLSReturned srv0 err)
  ∧ listener srv0 = listener srv
  ∧ listenerFile srv0 = listenerFile srv.
Proof.
  intros Hload srv0. unfold ListenAndServeTLS. rewrite Hload.
  split; [done|]. split; [done|]. subst srv0. by case_decide.
Qed.

Lemma ListenAndServeTLS_bad_key_pair_witness :
  sample_load "missing.pem" "key.pem" = inr (ErrorString "open: no such file or directory")
  ∧ ListenAndServeTLS sample_net sample_load sample_fresh "missing.pem" "key.pem"
    = TLSReturned sample_fresh (ErrorString "open: no such file or directory").
Proof.
  split; [reflexivity|].
  destruct (ListenAndServeTLS_bad_key_pair sample_net sample_load sample_fresh
              "missing.pem" "key.pem" (ErrorString "open: no such file or directory") eq_refl)
    as (H & _).
  rewrite H. reflexivity.
Defined.

(** X7.  With a key pair that loads and a non-empty address,
    [ListenAndServeTLS] takes the decisions of [ListenAndServe]: it
    returns the same error on the same server, or it wraps in TLS the
    listener of the server on which [ListenAndServe] would serve, an
    adopted one included, with the loaded certificate as the only one
    and "http/1.1" as the only protocol. *)
Theorem ListenAndServeTLS_as_plain (net : Net) (load : string → string → Certificate + error)
    (srv : Server) (certFile keyFile : string) (cert : Certificate) :
  Addr srv ≠ "" →
  load certFile keyFile = inl cert →
  match ListenAndServe net srv with
  | Returned s e =>
      ListenAndServeTLS net load srv certFile keyFile = TLSReturned s e
  | Serving w =>
      ListenAndServeTLS net load srv certFile keyFile
      = TLSServing (server w) (listener (server w))
          {| Rand := rand_Reader; Time := time_Seconds;
             NextProtos := ["http/1.1"]; Certificates := [cert] |}
      ∧ is_Some (listener (server w))
  end.
Proof.
  intros Haddr Hload. rewrite ListenAndServe_unfold. cbv zeta.
  unfold ListenAndServeTLS. rewrite Hload, !decide_False by done.
  destruct (listener srv) as [l|] eqn:El.
  - simpl. rewrite El. by split.
  - destruct (socketListen net srv) as [s [e|]] eqn:E; [done|].
    destruct (socketListen_timeout net srv s E) as (l & Hs & _).
    simpl. rewrite Hs. by split.
Qed.

Lemma ListenAndServeTLS_as_plain_witness :
  Addr sample_server ≠ ""
  ∧ sample_load "cert.pem" "key.pem" = inl {| cert_pem := "CERT"; key_pem := "KEY" |}
  ∧ ListenAndServeTLS sample_net sample_load sample_server "cert.pem" "key.pem"
    = TLSServing sample_server (listener sample_server)
        {| Rand := rand_Reader; Time := time_Seconds; NextProtos := ["http/1.1"];
           Certificates := [{| cert_pem := "CERT"; key_pem := "KEY" |}] |}.
Proof.
  assert (Ha : Addr sample_server ≠ "") by done.
  split; [exact Ha|]. split; [reflexivity|].
  pose proof (ListenAndServeTLS_as_plain sample_net sample_load sample_server
                "cert.pem" "key.pem" {| cert_pem := "CERT"; key_pem := "KEY" |} Ha eq_refl)
    as H.
  simpl in H. exact (proj1 H).
Defined.

(** ** The handler on any connection *)

Lemma request_loop_ok (now : nat → Z) (srv : Server) (c : Conn) (startTime : Z)
    (req : HttpRequest) (rest : list ReadResult) (n : nat) (st : HState) :
  request_loop now srv c startTime (ReadOk req :: rest) n st
  = let r := serve_request now srv c startTime req
               {| ticks := ticks st; events := events st ++ [EvReadRequest (ReadOk req)] |} in
    if r.1 then request_loop now srv c startTime rest (S n) r.2 else (S n, r.2).
Proof.
  simpl. unfold mbind, M_bind, call, mret, M_ret. simpl.
  by destruct (serve_request now srv c startTime req _) as [[|] st1].
Qed.

Lemma request_loop_err (now : nat → Z) (srv : Server) (c : Conn) (startTime : Z)
    (e : error) (rest : list ReadResult) (n : nat) (st : HState) :
  request_loop now srv c startTime (ReadErr e :: rest) n st
  = (n, (read_failed srv c e st).2).
Proof.
  simpl. unfold mbind, M_bind at 1, mret, M_ret.
  by destruct (read_failed srv c e st).
Qed.

Lemma request_loop_nil (now : nat → Z) (srv : Server) (c : Conn) (startTime : Z)
    (n : nat) (st : HState) :
  request_loop now srv c startTime [] n st
  = (n, (read_failed srv c io_ErrUnexpectedEOF st).2).
Proof.
  change (request_loop now srv c startTime [] n st)
    with ((read_failed srv c io_ErrUnexpectedEOF ≫= λ _, mret n) st).
  unfold mbind, M_bind at 1, mret, M_ret.
  by destruct (read_failed srv c io_ErrUnexpectedEOF st).
Qed.

(** The request loop on any input: the requests it serves are a prefix
    of the input; it ends after the first request that does not ask
    for keep-alive, or on the first read that fails. *)
Lemma request_loop_shape (now : nat → Z) (srv : Server) (c : Conn) (startTime : Z)
    (input : list ReadResult) (n : nat) (st : HState) :
  ∃ (reqs : list HttpRequest) (err : option error),
    skeleton (events (request_loop now srv c startTime input n st).2)
    = skeleton (events st) ++ concat (cycle <$> reqs) ++ loop_exit srv c err
    ∧ (request_loop now srv c startTime input n st).1 = (n + length reqs)%nat
    ∧ (ReadOk <$> reqs) `prefix_of` input
    ∧ match err with
      | None =>
          ∃ reqs' last, reqs = reqs' ++ [last] ∧ Forall keep_alive reqs' ∧ ¬ keep_alive last
      | Some e =>
          Forall keep_alive reqs
          ∧ ((input = ReadOk <$> reqs ∧ e = io_ErrUnexpectedEOF)
             ∨ ∃ rest, input = (ReadOk <$> reqs) ++ ReadErr e :: rest)
      end.
Proof.
  revert n st. induction input as [|[req|e] input IH]; intros n st.
  - exists [], (Some io_ErrUnexpectedEOF). rewrite request_loop_nil. cbn [fst snd].
    rewrite read_failed_run, skeleton_app. simpl.
    split; [done|]. split; [done|]. split; [done|]. split; [done|]. by left.
  - rewrite request_loop_ok. cbv zeta.
    pose proof (serve_request_flag now srv c startTime req
                  {| ticks := ticks st; events := events st ++ [EvReadRequest (ReadOk req)] |})
      as Hflag.
    pose proof (serve_request_skeleton now srv c startTime req
                  {| ticks := ticks st; events := events st ++ [EvReadRequest (ReadOk req)] |})
      as Hsk.
    destruct (serve_request now srv c startTime req _) as [flag st1].
    simpl in Hflag, Hsk. rewrite skeleton_app in Hsk. simpl in Hsk.
    destruct (decide (keep_alive req)) as [Hka|Hka]; subst flag; simpl.
    + destruct (IH (S n) st1) as (reqs & err & E & Hn & Hpre & Hend).
      exists (req :: reqs), err. split; [|split; [|split]].
      * etrans; [exact E|]. rewrite Hsk. simpl. by rewrite <- !app_assoc.
      * etrans; [exact Hn|]. simpl. lia.
      * simpl. by apply prefix_cons.
      * destruct err as [e|].
        -- destruct Hend as [Hall Hin]. split; [by constructor|].
           destruct Hin as [[-> ->]|[rest ->]]; [by left|right; by exists rest].
        -- destruct Hend as (reqs' & last & -> & Hall & Hlast).
           exists (req :: reqs'), last. split; [done|]. split; [by constructor|done].
    + exists [req], None. simpl. split; [|split; [|split]].
      * rewrite Hsk. by rewrite <- !app_assoc.
      * lia.
      * apply prefix_cons, prefix_nil.
      * exists [], req. by split.
  - exists [], (Some e). rewrite request_loop_err. cbn [fst snd].
    rewrite read_failed_run, skeleton_app. simpl.
    split; [by case_decide|]. split; [done|]. split; [apply prefix_nil|]. split; [done|].
    right. by exists input.
Qed.

(** X8.  On every connection whose read buffer could be allocated, and
    whatever the peer sends, what can be observed of the handler is:
    one read-write-flush cycle for each request of some prefix [reqs]
    of what the peer sent; then, unless the loop ended after a request
    that did not ask for keep-alive, one failed read, with its error
    line unless the error is [io.ErrUnexpectedEOF]; then the close of
    the connection and [Done].  All served requests but the last one
    asked for keep-alive, and the loop never goes on after a request
    that did not. *)
Theorem handler_trace_shape (now : nat → Z) (srv : Server) (c : Conn) :
  reader c 8192 = None →
  ∃ (reqs : list HttpRequest) (err : option error),
    skeleton (handler_events now srv c)
    = concat (cycle <$> reqs) ++ loop_exit srv c err ++ [TClose; TDone]
    ∧ (ReadOk <$> reqs) `prefix_of` incoming c
    ∧ match err with
      | None =>
          ∃ reqs' last, reqs = reqs' ++ [last] ∧ Forall keep_alive reqs' ∧ ¬ keep_alive last
      | Some e =>
          Forall keep_alive reqs
          ∧ ((incoming c = ReadOk <$> reqs ∧ e = io_ErrUnexpectedEOF)
             ∨ ∃ rest, incoming c = (ReadOk <$> reqs) ++ ReadErr e :: rest)
      end.
Proof.
  intros Hrd. rewrite handler_events_unfold, Hrd, skeleton_app.
  destruct (request_loop_shape now srv c (now 0%nat) (incoming c) 0
              {| ticks := 1; events := [] |}) as (reqs & err & E & _ & Hpre & Hend).
  exists reqs, err. split; [|by split].
  rewrite E. simpl. by rewrite <- !app_assoc.
Qed.

Lemma handler_trace_shape_witness :
  reader sample_broken 8192 = None
  ∧ ∃ reqs err,
      skeleton (handler_events sample_clock sample_server sample_broken)
      = concat (cycle <$> reqs) ++ loop_exit sample_server sample_broken err
        ++ [TClose; TDone].
Proof.
  split; [reflexivity|].
  destruct (handler_trace_shape sample_clock sample_server sample_broken eq_refl)
    as (reqs & err & H & _).
  exists reqs, err. exact H.
Defined.

(** X9.  A handler logs at most one error line on a connection,
    whatever happens on it. *)
Theorem handler_logs_at_most_once (now : nat → Z) (srv : Server) (c : Conn) :
  (length (logged (handler_events now srv c)) ≤ 1)%nat.
Proof.
  destruct (reader c 8192) as [e|] eqn:Hrd.
  - by rewrite handler_events_unfold, Hrd.
  - destruct (handler_trace_shape now srv c Hrd) as (reqs & err & H & _).
    rewrite logged_skeleton, H, logged_cycles.
    destruct err as [e|]; simpl; [|lia]. case_decide; simpl; lia.
Qed.

Lemma count_omap {B} (p : Event → bool) (f : Event → option B) (tr : list Event) :
  (∀ e, p e = true ↔ is_Some (f e)) →
  count p tr = length (omap f tr).
Proof.
  intros Hpf. unfold count. induction tr as [|e tr IH]; [done|].
  rewrite filter_cons. simpl. destruct (f e) as [b|] eqn:E.
  - rewrite decide_True by (apply Hpf; rewrite E; by eexists). simpl. by rewrite IH.
  - rewrite decide_False; [done|]. intros Hp. apply Hpf in Hp. rewrite E in Hp.
    by destruct Hp.
Qed.

Lemma serve_request_tally (now : nat → Z) (srv : Server) (c : Conn) (startTime : Z)
    (req : HttpRequest) (st : HState) :
  Forall (λ p, count p (events (serve_request now srv c startTime req
                                  {| ticks := ticks st;
                                     events := events st ++ [EvReadRequest (ReadOk req)] |}).2)
               = S (count p (events st)))
    per_request.
Proof.
  rewrite serve_request_run. cbn [snd events ticks].
  destruct (execute _ _ _) as [[res request'] k]. cbn [fst snd].
  destruct res as [res|]; cbn [default]; destruct (ResBody _);
    destruct (RequestDoneCallback _);
    repeat constructor; rewrite !count_app; unfold count; simpl; lia.
Qed.

Lemma read_failed_tally (srv : Server) (c : Conn) (err : error) (st : HState) :
  Forall (λ p, count p (events (read_failed srv c err st).2) = count p (events st))
    per_request.
Proof.
  rewrite read_failed_run.
  case_decide; repeat constructor; rewrite !count_app; unfold count; simpl; lia.
Qed.

Lemma request_loop_tally (now : nat → Z) (srv : Server) (c : Conn) (startTime : Z)
    (input : list ReadResult) (n : nat) (st : HState) :
  ∃ k, (k ≤ length input)%nat
       ∧ Forall (λ p, count p (events (request_loop now srv c startTime input n st).2)
                      = (count p (events st) + k)%nat)
           per_request.
Proof.
  revert n st. induction input as [|[req|e] input IH]; intros n st.
  - exists 0%nat. split; [done|]. rewrite request_loop_nil. cbn [fst snd].
    eapply Forall_impl; [apply read_failed_tally|]. intros p Hp. cbv beta in *. rewrite Hp. lia.
  - rewrite request_loop_ok. cbv zeta.
    pose proof (serve_request_tally now srv c startTime req st) as Hreq.
    destruct (serve_request now srv c startTime req _) as [[|] st1]; cbn [fst snd] in *.
    + destruct (IH (S n) st1) as (k & Hk & Hall).
      exists (S k). split; [simpl; lia|].
      rewrite Forall_forall in Hall, Hreq. apply Forall_forall. intros p Hp.
      rewrite (Hall p Hp), (Hreq p Hp). lia.
    + exists 1%nat. split; [simpl; lia|].
      eapply Forall_impl; [exact Hreq|]. intros p Hp. cbv beta in *. rewrite Hp. lia.
  - exists 0%nat. split; [simpl; lia|]. rewrite request_loop_err. cbn [fst snd].
    eapply Forall_impl; [apply read_failed_tally|]. intros p Hp. cbv beta in *. rewrite Hp. lia.
Qed.

Lemma length_reads_ok (tr : list Event) : length (reads_ok tr) = count is_read_ok tr.
Proof.
  symmetry. apply count_omap.
  intros [| [|] | | | | | | | | |]; simpl; split; (done || by intros [? ?] || by eexists).
Qed.

Lemma length_executed (tr : list Event) : length (executed tr) = count is_execute tr.
Proof.
  symmetry. apply count_omap.
  intros [| | | | | | | | | |]; simpl; split; (done || by intros [? ?] || by eexists).
Qed.

Lemma length_writes_of (tr : list Event) : length (writes_of tr) = count is_write tr.
Proof.
  symmetry. apply count_omap.
  intros [| | | | | | | | | |]; simpl; split; (done || by intros [? ?] || by eexists).
Qed.

Lemma length_completed (tr : list Event) : length (completed tr) = count is_finished tr.
Proof.
  symmetry. apply count_omap.
  intros [| | | | | | | | | |]; simpl; split; (done || by intros [? ?] || by eexists).
Qed.

(** X10.  On every connection a handler serves each request that it
    reads in full and exactly once: the requests read, the contexts
    submitted to the pipeline, the request bodies closed, the responses
    written, the flushes and the contexts handed to [requestFinished]
    are equally many, and no more than the peer sent. *)
Theorem one_response_per_request (now : nat → Z) (srv : Server) (c : Conn) :
  ∃ k, (k ≤ length (incoming c))%nat
       ∧ length (reads_ok (handler_events now srv c)) = k
       ∧ length (executed (handler_events now srv c)) = k
       ∧ count is_request_close (handler_events now srv c) = k
       ∧ length (writes_of (handler_events now srv c)) = k
       ∧ count is_flush (handler_events now srv c) = k
       ∧ length (completed (handler_events now srv c)) = k.
Proof.
  assert (∃ k, (k ≤ length (incoming c))%nat
               ∧ Forall (λ p, count p (handler_events now srv c) = k) per_request)
    as (k & Hk & Hall).
  { rewrite handler_events_unfold. destruct (reader c 8192) as [e|].
    - exists 0%nat. split; [lia|]. by repeat constructor.
    - destruct (request_loop_tally now srv c (now 0%nat) (incoming c) 0
                  {| ticks := 1; events := [] |}) as (k & Hk & Hall).
      exists k. split; [done|].
      assert (Hzero : Forall (λ p, count p [EvConnClose; EvWgDone] = 0%nat) per_request)
        by by repeat constructor.
      rewrite Forall_forall in Hall, Hzero. apply Forall_forall. intros p Hp.
      rewrite count_app, (Hall p Hp), (Hzero p Hp). cbn [events]. unfold count. simpl. lia. }
  exists k. split; [done|].
  unfold per_request in Hall.
  repeat (apply Forall_cons in Hall as [? Hall]).
  by rewrite length_reads_ok, length_executed, length_writes_of, length_completed.
Qed.

(** A relation between handler states that holds across a read, a
    failed read and one pass through the loop body, and that is
    reflexive and transitive, holds across the request loop. *)
Lemma request_loop_rel (R : HState → HState → Prop) (now : nat → Z) (srv : Server)
    (c : Conn) (startTime : Z) :
  (∀ st, R st st) →
  (∀ st1 st2 st3, R st1 st2 → R st2 st3 → R st1 st3) →
  (∀ st req, R st {| ticks := ticks st; events := events st ++ [EvReadRequest (ReadOk req)] |}) →
  (∀ st err, R st (read_failed srv c err st).2) →
  (∀ st req, R st (serve_request now srv c startTime req st).2) →
  ∀ input n st, R st (request_loop now srv c startTime input n st).2.
Proof.
  intros Hrefl Htrans Hread Hfail Hreq.
  induction input as [|[req|e] input IH]; intros n st.
  - rewrite request_loop_nil. apply Hfail.
  - rewrite request_loop_ok. cbv zeta.
    pose proof (Hreq {| ticks := ticks st;
                        events := events st ++ [EvReadRequest (ReadOk req)] |} req) as H1.
    destruct (serve_request now srv c startTime req _) as [[|] st1]; cbn [fst snd] in *.
    + eapply Htrans; [apply (Hread st req)|]. eapply Htrans; [exact H1|apply IH].
    + eapply Htrans; [apply (Hread st req)|exact H1].
  - rewrite request_loop_err. apply Hfail.
Qed.

(** X11.  Each request context that is handed to [requestFinished] is
    dispatched to the completion callback exactly once, with the same
    context and before the handler finishes another request, when a
    callback is configured; when none is configured the handler never
    dispatches one. *)
Theorem completion_callbacks (now : nat → Z) (srv : Server) (c : Conn) :
  finish_view (handler_events now srv c)
  = concat (finish_calls srv <$> completed (handler_events now srv c)).
Proof.
  rewrite handler_events_unfold. destruct (reader c 8192) as [e|]; [done|].
  pose (R := λ a b : HState,
          ∃ Y, completed (events b) = completed (events a) ++ Y
               ∧ finish_view (events b)
                 = finish_view (events a) ++ concat (finish_calls srv <$> Y)).
  assert (HR : R {| ticks := 1; events := [] |}
                 (request_loop now srv c (now 0%nat) (incoming c) 0
                    {| ticks := 1; events := [] |}).2).
  { apply request_loop_rel.
    - intros st. exists []. by rewrite !app_nil_r.
    - intros st1 st2 st3 (Y1 & C1 & F1) (Y2 & C2 & F2). exists (Y1 ++ Y2).
      rewrite C2, C1, F2, F1, fmap_app, concat_app. by rewrite !app_assoc.
    - intros st req. exists []. unfold completed, finish_view. cbn [events].
      rewrite !omap_app. simpl. by rewrite !app_nil_r.
    - intros st err. exists []. rewrite read_failed_run.
      unfold completed, finish_view. rewrite !omap_app.
      by case_decide.
    - intros st req. unfold R. rewrite serve_request_run. cbn [snd events].
      unfold finish_calls.
      destruct (execute _ _ _) as [[res request'] k]. cbn [fst snd].
      destruct res as [res|]; cbn [default]; destruct (ResBody _);
        destruct (RequestDoneCallback _);
        eexists [_]; unfold completed, finish_view; rewrite !omap_app;
        split; reflexivity. }
  destruct HR as (Y & HC & HF). simpl in HC, HF.
  unfold completed, finish_view in *. rewrite !omap_app, HC, HF. simpl.
  by rewrite !app_nil_r.
Qed.

(** X12.  Every request context that a handler submits to the pipeline
    is new: it is the context [newRequest] makes for a request read on
    this connection, with the start time of the connection (also for
    the later requests of a kept-alive connection), and its sequence
    holds the record "server.Init" and nothing else. *)
Theorem submitted_contexts_are_fresh (now : nat → Z) (srv : Server) (c : Conn)
    (request : Request) :
  request ∈ executed (handler_events now srv c) →
  ∃ (req : HttpRequest) (k : nat),
    request
    = appendPipelineStage (newRequest req c (now 0%nat))
        {| Name := "server.Init"; StartTime := now 0%nat; EndTime := now k |}
    ∧ ReqStartTime request = now 0%nat
    ∧ Connection request = c
    ∧ PipelineStageStats request
      = [{| Name := "server.Init"; StartTime := now 0%nat; EndTime := now k |}].
Proof.
  intros Hin.
  destruct (handler_events_emits
              (λ e, ∀ request, e = EvExecute request →
                 ∃ req k, request
                          = appendPipelineStage (newRequest req c (now 0%nat))
                              {| Name := "server.Init"; StartTime := now 0%nat;
                                 EndTime := now k |})
              now srv c) as (body & E & F).
  - by intros ? ? [=].
  - by intros ? ? [=].
  - intros req st. rewrite serve_request_run. cbn [snd events].
    eexists. split; [reflexivity|].
    apply Forall_cons. split; [intros ? [= <-]; by exists req, (ticks st)|].
    repeat (apply Forall_cons; split; [by intros ? [=]|]).
    apply Forall_app. split.
    + destruct (ResBody _); repeat constructor; by intros ? [=].
    + apply Forall_cons. split; [by intros ? [=]|].
      destruct (RequestDoneCallback _); repeat constructor; by intros ? [=].
  - rewrite E in Hin. unfold executed in Hin.
    apply list_elem_of_omap in Hin as (e & He & Hreq).
    assert (Hex : e = EvExecute request) by (by destruct e; simplify_eq).
    apply elem_of_app in He as [He|He].
    + rewrite Forall_forall in F. destruct (F e He request Hex) as (req & k & ->).
      by exists req, k.
    + subst e. apply elem_of_cons in He as [?|He]; [done|].
      apply elem_of_cons in He as [?|He]; [done|]. by apply elem_of_nil in He.
Qed.

Lemma submitted_contexts_are_fresh_witness :
  appendPipelineStage (newRequest sample_keepalive sample_conn 100)
    {| Name := "server.Init"; StartTime := 100; EndTime := 142 |}
  ∈ executed (handler_events sample_clock sample_server sample_conn)
  ∧ ReqStartTime (appendPipelineStage (newRequest sample_keepalive sample_conn 100)
                    {| Name := "server.Init"; StartTime := 100; EndTime := 142 |})
    = sample_clock 0.
Proof.
  assert (Hin : appendPipelineStage (newRequest sample_keepalive sample_conn 100)
                  {| Name := "server.Init"; StartTime := 100; EndTime := 142 |}
                ∈ executed (handler_events sample_clock sample_server sample_conn))
    by (vm_compute; constructor; constructor).
  split; [exact Hin|].
  destruct (submitted_contexts_are_fresh sample_clock sample_server sample_conn _ Hin)
    as (req & k & _ & H & _).
  exact H.
Defined.

(** ** The accept loop along every schedule *)

Lemma run_invariant (P : World → Prop) (w w' : World) (acts : list Action) :
  (∀ w1 a w2, P w1 → step w1 a = Some w2 → P w2) →
  P w → run w acts = Some w' → P w'.
Proof.
  intros Hstep. revert w. induction acts as [|a acts IH]; intros w HP Hrun; simpl in Hrun.
  - by simplify_eq.
  - destruct (step w a) as [w1|] eqn:E; [|discriminate]. eauto.
Qed.

Lemma handler_step_channels (i : nat) (w w' : World) :
  handler_step i w = Some w' → acceptReady w' = acceptReady w.
Proof.
  unfold handler_step.
  destruct (goroutines w !! i) as [[|e rest]|]; try discriminate.
  destruct e; try case_decide; intros; by simplify_eq/=.
Qed.

(** The cases of a step of [serve] itself. *)
Ltac serve_cases H w :=
  unfold serve_step in H;
  destruct (pc w) as [|[|]| |?c|?c| | |?e] eqn:?Hpc; try discriminate;
  try (case_decide; [|discriminate]);
  try (match type of H with context [senders w] => destruct (senders w) eqn:?Hsenders end);
  simplify_eq/=.

Ltac accept_cases H w :=
  unfold accept_step in H;
  destruct (pc w) eqn:?Hpc; try discriminate;
  (case_decide; [|discriminate]);
  match type of H with context [match ?r with AcceptConn _ => _ | AcceptErr _ => _ end] =>
    destruct r
  end;
  simplify_eq/=.

Ltac go_cases H w :=
  unfold go_step in H;
  destruct (pc w) eqn:?Hpc; try discriminate;
  simplify_eq/=.

(** X13.  [serve] sends on [AcceptReady] exactly once, as its first
    statement and so before its first [Accept], and never again.  The
    receivers of that channel are callers outside this file; leaving
    them out, the channel is empty in every state [serve] can reach in
    which it has not yet sent, and holds that one value from then on. *)
Theorem accept_ready_once (srv : Server) (w : World) :
  reachable srv w →
  acceptReady w = match pc w with PcAcceptReady => [] | _ => [1] end.
Proof.
  intros [acts Hrun].
  apply (run_invariant (λ w, acceptReady w = match pc w with PcAcceptReady => [] | _ => [1] end)
           (init_world srv) w acts); [|reflexivity|exact Hrun].
  clear. intros w a w' HP Hstep.
  destruct a as [|l r|now|i|]; simpl in Hstep.
  - serve_cases Hstep w; rewrite ?Hpc in HP; try done; by rewrite HP.
  - accept_cases Hstep w; rewrite ?Hpc in HP; try done; by rewrite HP.
  - go_cases Hstep w; rewrite ?Hpc in HP; try done; by rewrite HP.
  - destruct (handler_step_frame i w w' Hstep) as (Hpc & _).
    by rewrite Hpc, (handler_step_channels i w w' Hstep).
  - by simplify_eq/=.
Qed.

Lemma accept_ready_once_witness :
  reachable sample_server sample_select ∧ acceptReady sample_select = [1].
Proof.
  split; [exact sample_select_reachable|].
  exact (accept_ready_once sample_server sample_select sample_select_reachable).
Defined.

(** X14.  [serve] receives exactly one stop signal, and only that ends
    its loop: in every state it can reach, one call of [StopAccepting]
    has returned if [serve] has left its loop, and none has
    otherwise.  So no error of [Accept] and no handler ends the loop,
    and every other caller of [StopAccepting] is still blocked. *)
Theorem one_stop_signal (srv : Server) (w : World) :
  reachable srv w →
  delivered w = (if left_loop w then 1 else 0)%nat.
Proof.
  intros [acts Hrun].
  apply (run_invariant (λ w, delivered w = (if left_loop w then 1 else 0)%nat)
           (init_world srv) w acts); [|reflexivity|exact Hrun].
  clear. intros w a w' HP Hstep. unfold left_loop in *.
  destruct a as [|l r|now|i|]; simpl in Hstep.
  - serve_cases Hstep w; rewrite ?Hpc in HP; try done; by rewrite HP.
  - accept_cases Hstep w; rewrite ?Hpc in HP; try done; by rewrite HP.
  - go_cases Hstep w; rewrite ?Hpc in HP; try done; by rewrite HP.
  - destruct (handler_step_frame i w w' Hstep) as (Hpc & _ & _ & _ & Hd & _).
    by rewrite Hpc, Hd.
  - by simplify_eq/=.
Qed.

Lemma one_stop_signal_witness :
  reachable sample_server sample_stopped ∧ delivered sample_stopped = 1%nat.
Proof.
  split; [exact sample_stopped_reachable|].
  exact (one_stop_signal sample_server sample_stopped sample_stopped_reachable).
Defined.

(** X15.  No accepted connection is dropped and no handler is started
    without one: in every state [serve] can reach, the handlers are
    those of the accepted connections, one each and in the order of
    acceptance, but for the connection, if any, that [serve] holds
    between [Accept] and the [go] statement; and what a handler has
    still to do is the rest of the calls of [handler] on its own
    connection. *)
Theorem handlers_match_accepted (srv : Server) (w : World) :
  reachable srv w →
  ∃ cs,
    accepted w = cs ++ in_hand w
    ∧ Forall2 (λ c g, ∃ now, g `suffix_of` handler_events now srv c) cs (goroutines w).
Proof.
  intros [acts Hrun].
  pose (P := λ w, server w = srv
                  ∧ ∃ cs, accepted w = cs ++ in_hand w
                          ∧ Forall2 (λ c g, ∃ now, g `suffix_of` handler_events now srv c)
                              cs (goroutines w)).
  assert (HP : P w); [|by destruct HP].
  apply (run_invariant P (init_world srv) w acts); [|split; [done|by exists []]|exact Hrun].
  unfold P.
  clear. intros w a w' (Hsrv & cs & Hacc & Hall) Hstep. unfold in_hand in *.
  split; [by rewrite (step_server w w' a Hstep)|].
  destruct a as [|l r|now|i|]; simpl in Hstep.
  - serve_cases Hstep w; rewrite ?Hpc in Hacc; by exists cs.
  - accept_cases Hstep w; rewrite ?Hpc in Hacc; simpl in *.
    + exists cs. split; [|done]. by rewrite Hacc, app_nil_r.
    + by exists cs.
  - go_cases Hstep w; rewrite ?Hpc in Hacc.
    match goal with H : pc w = PcGo ?c |- _ => exists (cs ++ [c]) end.
    split; [by rewrite app_nil_r|].
    apply Forall2_app; [done|]. constructor; [|constructor].
    by exists now.
  - destruct (handler_step_frame i w w' Hstep)
      as (Hpc & _ & Hacc' & _ & _ & e & rest & Hi & Hgs).
    exists cs. rewrite Hpc, Hacc', Hgs. split; [done|].
    destruct (Forall2_lookup_r _ _ _ _ _ Hall Hi) as (c & Hc & now & Hsuf).
    rewrite <- (list_insert_id cs i c Hc).
    apply Forall2_insert; [done|]. exists now.
    etrans; [|exact Hsuf]. by apply suffix_cons_r.
  - simplify_eq/=. by exists cs.
Qed.

Lemma handlers_match_accepted_witness :
  reachable sample_server sample_select
  ∧ ∃ cs, accepted sample_select = cs ++ in_hand sample_select
          ∧ length cs = length (goroutines sample_select).
Proof.
  split; [exact sample_select_reachable|].
  destruct (handlers_match_accepted sample_server sample_select sample_select_reachable)
    as (cs & Hacc & Hall).
  exists cs. split; [exact Hacc|]. exact (Forall2_length _ _ _ Hall).
Defined.

(** X16.  The wait group never panics and never holds a handler back:
    in every state [serve] can reach the counter is not negative, and
    a handler that has calls left can make the next one, [Done]
    included, which leaves the counter not negative. *)
Theorem handlers_never_stuck (srv : Server) (w : World) (i : nat) (e : Event)
    (rest : list Event) :
  reachable srv w →
  goroutines w !! i = Some (e :: rest) →
  0 ≤ wg w
  ∧ ∃ w', step w (ActHandler i) = Some w'
          ∧ goroutines w' = <[i := rest]> (goroutines w)
          ∧ 0 ≤ wg w'.
Proof.
  intros Hreach Hi.
  destruct (reachable_inv srv w Hreach) as [(Hwg & Hall & Hret) _].
  assert (Hpos : 0 ≤ wg w) by (rewrite Hwg; destruct (pc w); lia).
  split; [exact Hpos|].
  assert (Hdone : is_done e = true → 1 ≤ wg w).
  { intros Hd. rewrite Hwg, (pending_done_pop _ _ _ _ Hi), Hd. destruct (pc w); lia. }
  destruct (handler_step_enabled i w e rest Hi Hdone) as [w' Hstep].
  exists w'. split; [exact Hstep|].
  destruct (handler_step_frame i w w' Hstep) as (_ & _ & _ & _ & _ & e' & rest' & Hi' & Hgs).
  rewrite Hi in Hi'. injection Hi' as <- <-. split; [exact Hgs|].
  destruct (handler_step_wg i w w' e rest Hstep Hi) as [-> _].
  destruct (is_done e); [specialize (Hdone eq_refl)|]; lia.
Qed.

Lemma handlers_never_stuck_witness :
  reachable sample_server sample_select
  ∧ (∃ e rest, goroutines sample_select !! 0%nat = Some (e :: rest))
  ∧ is_Some (step sample_select (ActHandler 0)).
Proof.
  split; [exact sample_select_reachable|].
  assert (Hi : goroutines sample_select !! 0%nat
               = Some (EvReadRequest (ReadOk sample_keepalive)
                         :: tail (handler_events sample_clock sample_server sample_conn)))
    by (vm_compute; reflexivity).
  split; [by eexists _, _|].
  destruct (handlers_never_stuck sample_server sample_select 0 _ _
              sample_select_reachable Hi) as (_ & w' & Hstep & _).
  by exists w'.
Defined.

(** X17.  [serve], entered on a server with a listener and an empty
    [AcceptReady], cannot deadlock: in every state it can reach,
    unless [serve] has returned nil, [serve] or a handler can take a
    step ([Accept] being ready to return, as its timeout provides).
    It needs no further call of [StopAccepting] for that. *)
Theorem serve_never_deadlocks (srv : Server) (w : World) (l : Listener) :
  listener srv = Some l →
  reachable srv w →
  pc w = PcReturned None
  ∨ ∃ a w', is_stop a = false ∧ step w a = Some w'.
Proof.
  intros Hl Hreach.
  destruct (reachable_inv srv w Hreach) as [Hinv Hsrv].
  pose proof (accept_ready_once srv w Hreach) as Hready.
  destruct (pc w) as [|[|]| |c|c| | |e] eqn:Hpc.
  - right. exists ActServe. simpl. unfold serve_step. rewrite Hpc, Hready. eauto.
  - right. exists ActServe. simpl. unfold serve_step. rewrite Hpc. eauto.
  - rewrite <- Hpc. apply draining_progress; [done|]. by left.
  - right. exists (ActAccept l (AcceptErr (OpError true true "timeout"))).
    simpl. unfold accept_step. rewrite Hpc, Hsrv, decide_True by done. eauto.
  - right. exists ActServe. simpl. unfold serve_step. rewrite Hpc. eauto.
  - right. exists (ActGo (λ _, 0)). simpl. unfold go_step. rewrite Hpc. eauto.
  - right. exists ActServe. simpl. unfold serve_step. rewrite Hpc.
    destruct (senders w); eauto.
  - rewrite <- Hpc. apply draining_progress; [done|]. right. by left.
  - destruct Hinv as (_ & _ & Hret). destruct (Hret e Hpc) as [-> _]. by left.
Qed.

Lemma serve_never_deadlocks_witness :
  listener sample_server = Some (ListenerTCP (SetTimeout sample_tcp accept_timeout))
  ∧ reachable sample_server sample_select
  ∧ ∃ a w', is_stop a = false ∧ step sample_select a = Some w'.
Proof.
  split; [reflexivity|]. split; [exact sample_select_reachable|].
  destruct (serve_never_deadlocks sample_server sample_select _ eq_refl
              sample_select_reachable) as [Hret|H].
  - by vm_compute in Hret.
  - exact H.
Defined.

(** X18.  Once a caller waits in [StopAccepting], [serve] accepts at
    most one more connection, along every schedule: the one whose
    [Accept] returns before the next [select]; and none if [serve]
    already stands between [Accept] and the [select], or has left its
    loop. *)
Theorem at_most_one_accept_after_stop (w w' : World) (acts : list Action) :
  (0 < senders w)%nat →
  run w acts = Some w' →
  (length (accepted w') ≤ length (accepted w) + accept_budget w)%nat
  ∧ (accept_budget w ≤ 1)%nat.
Proof.
  intros Hs Hrun. split; [|unfold accept_budget; destruct (pc w) as [|[|]| | | | | |]; lia].
  pose (P := λ w1 : World,
          ((0 < senders w1)%nat ∨ left_loop w1 = true)
          ∧ (length (accepted w1) + accept_budget w1
             ≤ length (accepted w) + accept_budget w)%nat).
  assert (HP : P w'); [|destruct HP as [_ HP]; lia].
  apply (run_invariant P w w' acts); [|split; [by left|lia]|exact Hrun].
  unfold P, accept_budget, left_loop. clear.
  intros w1 a w2 [HK Hle] Hstep.
  destruct a as [|l r|now|i|]; simpl in Hstep.
  - serve_cases Hstep w1; rewrite ?Hpc in *; simpl in *;
      (split; [first [by right | left; lia | by destruct HK]|lia]).
  - accept_cases Hstep w1; rewrite ?Hpc in *; simpl in *;
      (split; [done|rewrite ?length_app; simpl; lia]).
  - go_cases Hstep w1; rewrite ?Hpc in *; simpl in *; (split; [done|lia]).
  - destruct (handler_step_frame i w1 w2 Hstep) as (Hpc & _ & Hacc & Hsnd & _).
    by rewrite Hpc, Hacc, Hsnd.
  - simplify_eq/=. split; [left; lia|done].
Qed.

Lemma at_most_one_accept_after_stop_witness :
  (0 < senders sample_select)%nat
  ∧ (length (accepted (default sample_select
                         (run sample_select [ActServe; ActServe; ActHandler 0])))
     ≤ 1)%nat.
Proof.
  assert (Hs : (0 < senders sample_select)%nat) by (vm_compute; lia).
  split; [exact Hs|].
  destruct (run sample_select [ActServe; ActServe; ActHandler 0]) as [w'|] eqn:E.
  - destruct (at_most_one_accept_after_stop sample_select w' _ Hs E) as [H _].
    simpl. etrans; [exact H|]. by vm_compute.
  - by vm_compute.
Defined.
